(** * 2D mass-spring soft body: the physics step of main.cpp

    The simulation core of the repository is the function [update] of
    main.cpp (force accumulation over the grid, then integration of every
    point mass and the copy of its position into the display mesh), the
    helper [IntegrateLinear], and the constructor of [SoftBody].

    The code computes on C [float]s through GLM vectors.  The embedding is
    written once, over an interface [Arith] of the scalar operations the
    code uses, and is read at two instances:
    - [binary32], IEEE single precision, built on the Standard Library's
      executable specification of floating point numbers ([SpecFloat]);
      every definition evaluates there;
    - exact arithmetic: any instance in which the operations obey the laws
      of a commutative ring ([ExactArith]); the real numbers are one.
    Statements about the control structure of the step hold at every
    instance.  Statements about values are made in single precision, the
    arithmetic of the program; exact arithmetic is an idealisation, and what
    is proved there is kept beside them for comparison only.

    The first part holds the definitions: the program, the reference
    composition of the step, the predicates of the statements, the two
    arithmetics and the scenarios.  The second part holds the lemmas and the
    theorems. *)

From Stdlib Require Import ZArith List Bool Lia.
From Stdlib Require Import Floats.SpecFloat.
From Stdlib Require Import Reals Lra Ring RealField.
From stdpp Require Import base list.

(** * Part I: definitions *)

(** ** Scalars *)

(** The operations on [float] that the three source files use.  [fsquare x]
    stands for the C library call [powf(x, 2)]; [of_int] for the implicit
    conversion of an [int] operand in [width / subdivisionsX] and
    [widthStep * j]. *)
Class Arith (F : Type) := {
  fzero : F;
  fhalf : F;
  fone : F;
  ftwo : F;
  fadd : F -> F -> F;
  fsub : F -> F -> F;
  fmul : F -> F -> F;
  fdiv : F -> F -> F;
  fopp : F -> F;
  fsqrt : F -> F;
  fsquare : F -> F;
  of_int : Z -> F
}.

(** Exact arithmetic: the operations form a commutative ring and [powf(x, 2)]
    is [x * x].  Nothing is assumed of division and square root. *)
Class ExactArith (F : Type) `{Arith F} := {
  exact_ring : ring_theory fzero fone fadd fmul fsub fopp (@eq F);
  exact_square : forall x : F, fsquare x = fmul x x
}.

(** ** GLM vectors *)

Record vec3 (F : Type) := mkvec3 { vx : F; vy : F; vz : F }.
Arguments mkvec3 {F} _ _ _.
Arguments vx {F} _.
Arguments vy {F} _.
Arguments vz {F} _.

Section Glm.
Context {F : Type} `{Arith F}.

(** [glm::vec3(s)] *)
Definition vsplat (s : F) : vec3 F := mkvec3 s s s.

(** [glm::vec3(0.0f)] *)
Definition vzero : vec3 F := vsplat fzero.

(** [a + b], [a - b] on vectors *)
Definition vadd (a b : vec3 F) : vec3 F :=
  mkvec3 (fadd (vx a) (vx b)) (fadd (vy a) (vy b)) (fadd (vz a) (vz b)).

Definition vsub (a b : vec3 F) : vec3 F :=
  mkvec3 (fsub (vx a) (vx b)) (fsub (vy a) (vy b)) (fsub (vz a) (vz b)).

(** unary minus, componentwise *)
Definition vopp (a : vec3 F) : vec3 F :=
  mkvec3 (fopp (vx a)) (fopp (vy a)) (fopp (vz a)).

(** [s * v], scalar on the left *)
Definition smul (s : F) (v : vec3 F) : vec3 F :=
  mkvec3 (fmul s (vx v)) (fmul s (vy v)) (fmul s (vz v)).

(** [v * s], scalar on the right *)
Definition vmuls (v : vec3 F) (s : F) : vec3 F :=
  mkvec3 (fmul (vx v) s) (fmul (vy v) s) (fmul (vz v) s).

(** [glm::dot]: the products are summed left to right. *)
Definition dot (a b : vec3 F) : F :=
  fadd (fadd (fmul (vx a) (vx b)) (fmul (vy a) (vy b))) (fmul (vz a) (vz b)).

(** [glm::length(v)] is [sqrt(dot(v, v))]. *)
Definition length3 (v : vec3 F) : F := fsqrt (dot v v).

(** [glm::inversesqrt(x)] is [1 / sqrt(x)]. *)
Definition inversesqrt (x : F) : F := fdiv fone (fsqrt x).

(** [glm::normalize(v)] is [v * inversesqrt(dot(v, v))]; there is no test
    for the zero vector. *)
Definition normalize (v : vec3 F) : vec3 F := vmuls v (inversesqrt (dot v v)).

End Glm.

(** ** Rigid bodies *)

(** The struct is declared in a header that is not among the sources; these
    are the fields main.cpp and the [SoftBody] constructor read and write. *)
Record RigidBody (F : Type) := mkRigidBody {
  position : vec3 F;
  velocity : vec3 F;
  acceleration : vec3 F;
  netForce : vec3 F;
  netImpulse : vec3 F;
  inverseMass : F
}.
Arguments mkRigidBody {F} _ _ _ _ _ _.
Arguments position {F} _.
Arguments velocity {F} _.
Arguments acceleration {F} _.
Arguments netForce {F} _.
Arguments netImpulse {F} _.
Arguments inverseMass {F} _.

Section Body.
Context {F : Type} `{Arith F}.

(** Modelled from the spec: the four-argument constructor
    [RigidBody(position, velocity, acceleration, mass)], whose definition is
    not among the sources.  The accumulators start at zero.  The spec gives
    every body the inverse mass 1; the only call passes [1.0f], and [1 / 1]
    is 1 in both arithmetics. *)
Definition newRigidBody (pos vel acc : vec3 F) (mass : F) : RigidBody F :=
  mkRigidBody pos vel acc vzero vzero (fdiv fone mass).

(** [body.netForce += f] *)
Definition addForce (f : vec3 F) (b : RigidBody F) : RigidBody F :=
  mkRigidBody (position b) (velocity b) (acceleration b)
              (vadd (netForce b) f) (netImpulse b) (inverseMass b).

(** main.cpp, [IntegrateLinear(dt, body)], statement by statement. *)
Definition IntegrateLinear (dt : F) (body : RigidBody F) : RigidBody F :=
  let acceleration' := smul (inverseMass body) (netForce body) in
  let v0dT := smul dt (velocity body) in
  let aT2 := vmuls (smul fhalf acceleration') (fsquare dt) in
  let position' := vadd (position body) (vadd v0dT aT2) in
  let velocity' :=
    vadd (velocity body)
         (vadd (smul dt acceleration')
               (smul (inverseMass body) (netImpulse body))) in
  mkRigidBody position' velocity' acceleration' vzero vzero (inverseMass body).

End Body.

(** ** The soft body and the display mesh *)

(** [struct SoftBody]. [bodies] is an array of [subdivisionsY] rows, each an
    array of [subdivisionsX] bodies; it is addressed [bodies[i][j]] with the
    row first. *)
Record SoftBody (F : Type) := mkSoftBody {
  subdivisionsX : Z;
  subdivisionsY : Z;
  restHeight : F;
  restWidth : F;
  numRigidBodies : Z;
  bodies : list (list (RigidBody F));
  coefficient : F;
  dampening : F
}.
Arguments mkSoftBody {F} _ _ _ _ _ _ _ _.
Arguments subdivisionsX {F} _.
Arguments subdivisionsY {F} _.
Arguments restHeight {F} _.
Arguments restWidth {F} _.
Arguments numRigidBodies {F} _.
Arguments bodies {F} _.
Arguments coefficient {F} _.
Arguments dampening {F} _.

(** [struct Vertex] as main.cpp fills it: a position and a colour.  The
    field names are kept, inside a module of their own. *)
Module Vertex.

Record t (F : Type) := mk {
  x : F; y : F; z : F;
  r : F; g : F; b : F; a : F
}.
Arguments mk {F} _ _ _ _ _ _ _.
Arguments x {F} _.
Arguments y {F} _.
Arguments z {F} _.
Arguments r {F} _.
Arguments g {F} _.
Arguments b {F} _.
Arguments a {F} _.

End Vertex.

(** [struct Mesh] is declared outside the sources; [update] touches only its
    array of vertices. *)
Record Mesh (F : Type) := mkMesh { vertices : list (Vertex.t F) }.
Arguments mkMesh {F} _.
Arguments vertices {F} _.

Abbreviation grid F := (list (list (RigidBody F))).

(** What [update] polls: left shift, mouse button 0, mouse button 1. *)
Record Input := mkInput { shift : bool; button0 : bool; button1 : bool }.

Section Grid.
Context {F : Type}.

(** [bodies[i][j]], when the cell exists *)
Definition cell (gr : grid F) (i j : nat) : option (RigidBody F) :=
  gr !! i ≫= (.!! j).

(** an assignment through [bodies[i][j]]; outside the arrays the C++ is
    undefined, here the grid is left as it is *)
Definition alter_cell (f : RigidBody F -> RigidBody F) (i j : nat)
    (gr : grid F) : grid F :=
  alter (alter f j) i gr.

(** the two nested [for] loops of [update] and of the constructor: [i] below
    [ny] outermost, [j] below [nx] innermost, one state threaded through *)
Definition for_cells {S : Type} (ny nx : nat) (body : nat -> nat -> S -> S)
    (s : S) : S :=
  foldl (fun s i => foldl (fun s j => body i j s) s (seq 0 nx)) s (seq 0 ny).

End Grid.

(** ** The constructor and the step *)

Section Soft.
Context {F : Type} `{Arith F}.

(** the shape the constructor allocates: [subdivisionsY] rows of
    [subdivisionsX] bodies *)
Definition grid_shape (ny nx : nat) (gr : grid F) : Prop :=
  length gr = ny /\ Forall (fun row => length row = nx) gr.

Definition well_formed (sb : SoftBody F) : Prop :=
  grid_shape (Z.to_nat (subdivisionsY sb)) (Z.to_nat (subdivisionsX sb))
             (bodies sb).

(** [SoftBody::SoftBody(width, height, subX, subY, coeff, damp)] *)
Definition newSoftBody (width height : F) (subX subY : Z) (coeff damp : F)
    : SoftBody F :=
  let startWidth := fdiv (fopp width) ftwo in
  let widthStep := fdiv width (of_int subX) in
  let startHeight := fdiv (fopp height) ftwo in
  let heightStep := fdiv height (of_int subY) in
  mkSoftBody subX subY heightStep widthStep (subX * subY)
    (map (fun i =>
       map (fun j =>
          newRigidBody
            (mkvec3 (fadd startWidth (fmul widthStep (of_int (Z.of_nat j))))
                    (fadd startHeight (fmul heightStep (of_int (Z.of_nat i))))
                    fzero)
            vzero vzero fone)
         (seq 0 (Z.to_nat subX)))
       (seq 0 (Z.to_nat subY)))
    coeff damp.

(** *** Phase A of [update]: forces *)

(** The right-hand side of each of the four [netForce +=] statements:
    Hooke's term along the displacement to the neighbour, minus the damping
    term on the body's own velocity. *)
Definition spring_part (sb : SoftBody F) (rest : F)
    (self nb : RigidBody F) : vec3 F :=
  let displacement := vsub (position nb) (position self) in
  let direction := normalize displacement in
  let mag := length3 displacement in
  smul (fmul (coefficient sb) (fsub mag rest)) direction.

Definition damping_part (sb : SoftBody F) (self : RigidBody F) : vec3 F :=
  vmuls (velocity self) (dampening sb).

Definition neighbor_force (sb : SoftBody F) (rest : F)
    (self nb : RigidBody F) : vec3 F :=
  vsub (spring_part sb rest self nb) (damping_part sb self).

(** One of the four [if] blocks: read [bodies[ni][nj]] and [bodies[i][j]] in
    the current grid, add to [bodies[i][j].netForce]. *)
Definition pull (sb : SoftBody F) (rest : F) (ni nj i j : nat)
    (gr : grid F) : grid F :=
  match cell gr ni nj, cell gr i j with
  | Some nb, Some self =>
      alter_cell (fun _ => addForce (neighbor_force sb rest self nb) self) i j gr
  | _, _ => gr
  end.

Definition has_above (i : nat) : bool := (0 <? Z.of_nat i)%Z.

Definition has_below (sb : SoftBody F) (i : nat) : bool :=
  (Z.of_nat i <? subdivisionsY sb - 1)%Z.

Definition has_left (j : nat) : bool := (0 <? Z.of_nat j)%Z.

Definition has_right (sb : SoftBody F) (j : nat) : bool :=
  (Z.of_nat j <? subdivisionsX sb - 1)%Z.

(** The body of the first pair of loops, for the cell [(i, j)]. *)
Definition cell_forces (sb : SoftBody F) (externalForce : vec3 F)
    (i j : nat) (gr : grid F) : grid F :=
  let gr := if has_above i
            then pull sb (restHeight sb) (i - 1) j i j gr else gr in
  let gr := if has_below sb i
            then pull sb (restHeight sb) (i + 1) j i j gr else gr in
  let gr := if has_left j
            then pull sb (restWidth sb) i (j - 1) i j gr else gr in
  let gr := if has_right sb j
            then pull sb (restWidth sb) i (j + 1) i j gr else gr in
  if (Z.of_nat i =? 0)%Z then alter_cell (addForce externalForce) i j gr
  else gr.

Definition accumulate (sb : SoftBody F) (externalForce : vec3 F)
    (gr : grid F) : grid F :=
  for_cells (Z.to_nat (subdivisionsY sb)) (Z.to_nat (subdivisionsX sb))
            (cell_forces sb externalForce) gr.

(** *** Phase B of [update]: integration and the mesh *)

(** [int numVertex = i * body->subdivisionsY + j]; the [int]s are modelled on
    the integers, overflow is left out *)
Definition numVertex (sb : SoftBody F) (i j : nat) : Z :=
  Z.of_nat i * subdivisionsY sb + Z.of_nat j.

(** the three assignments to [lattice->vertices[numVertex]] *)
Definition move_vertex (p : vec3 F) (v : Vertex.t F) : Vertex.t F :=
  Vertex.mk (vx p) (vy p) (vz p)
            (Vertex.r v) (Vertex.g v) (Vertex.b v) (Vertex.a v).

(** The body of the second pair of loops. *)
Definition integrate_cell (sb : SoftBody F) (dt : F) (i j : nat)
    (st : grid F * list (Vertex.t F)) : grid F * list (Vertex.t F) :=
  let gr := alter_cell (IntegrateLinear dt) i j (fst st) in
  match cell gr i j with
  | Some body =>
      (gr, alter (move_vertex (position body))
                 (Z.to_nat (numVertex sb i j)) (snd st))
  | None => (gr, snd st)
  end.

Definition integrate_all (sb : SoftBody F) (dt : F)
    (st : grid F * list (Vertex.t F)) : grid F * list (Vertex.t F) :=
  for_cells (Z.to_nat (subdivisionsY sb)) (Z.to_nat (subdivisionsX sb))
            (integrate_cell sb dt) st.

(** *** The step *)

(** [update] from the declaration of [displacement] on: the step on the two
    globals [body] and [lattice], for a given external force. *)
Definition Step (dt : F) (externalForce : vec3 F)
    (st : SoftBody F * Mesh F) : SoftBody F * Mesh F :=
  let sb := fst st in
  let after := integrate_all sb dt
                 (accumulate sb externalForce (bodies sb), vertices (snd st)) in
  (mkSoftBody (subdivisionsX sb) (subdivisionsY sb) (restHeight sb)
              (restWidth sb) (numRigidBodies sb) (fst after)
              (coefficient sb) (dampening sb),
   mkMesh (snd after)).

(** the head of [update]: the external force chosen by the input *)
Definition externalForceOf (inp : Input) : vec3 F :=
  let e := vzero in
  if shift inp then
    let e := if button0 inp then mkvec3 (vx e) ftwo (vz e) else e in
    if button1 inp then mkvec3 (vx e) (fopp ftwo) (vz e) else e
  else
    let e := if button0 inp then mkvec3 ftwo (vy e) (vz e) else e in
    if button1 inp then mkvec3 (fopp ftwo) (vy e) (vz e) else e.

(** [update(dt)] *)
Definition update (dt : F) (inp : Input) (st : SoftBody F * Mesh F)
    : SoftBody F * Mesh F :=
  Step dt (externalForceOf inp) st.

(** successive calls of [Step] with one [dt], as the driver [checkTime]
    makes them, one external force per call *)
Fixpoint Steps (dt : F) (forces : list (vec3 F))
    (st : SoftBody F * Mesh F) : SoftBody F * Mesh F :=
  match forces with
  | [] => st
  | externalForce :: forces' => Steps dt forces' (Step dt externalForce st)
  end.

End Soft.

(** ** The loops as a list of visits *)

(** the cells in the order the two loops visit them *)
Definition cells (ny nx : nat) : list (nat * nat) :=
  flat_map (fun i => map (pair i) (seq 0 nx)) (seq 0 ny).

Section Visits.
Context {F : Type} `{Arith F}.

(** the index into the mesh that phase B computes for a cell *)
Definition vindex (sb : SoftBody F) (p : nat * nat) : nat :=
  Z.to_nat (numVertex sb (fst p) (snd p)).

(** the body of the second pair of loops, at a cell of the list *)
Definition visit (sb : SoftBody F) (dt : F)
    (st : grid F * list (Vertex.t F)) (p : nat * nat)
    : grid F * list (Vertex.t F) :=
  integrate_cell sb dt (fst p) (snd p) st.
End Visits.

(** ** The blocks of the loop, one by one *)

Section Blocks.
Context {F : Type} `{Arith F}.

(** The blocks of [update] that run for the cell [p], in the order of the
    program: for each one, the cell it reads and the rest length it passes to
    Hooke's law. *)
Definition blocks (sb : SoftBody F) (p : nat * nat)
    : list ((nat * nat) * F) :=
  let i := fst p in
  let j := snd p in
  (if has_above i then [((i - 1, j), restHeight sb)] else []) ++
  (if has_below sb i then [((i + 1, j), restHeight sb)] else []) ++
  (if has_left j then [((i, j - 1), restWidth sb)] else []) ++
  (if has_right sb j then [((i, j + 1), restWidth sb)] else []).

(** one of these blocks, run for the cell [p] on the grid *)
Definition run_block (sb : SoftBody F) (p : nat * nat) (gr : grid F)
    (b : (nat * nat) * F) : grid F :=
  pull sb (snd b) (fst (fst b)) (snd (fst b)) (fst p) (snd p) gr.

(** two cells next to each other in a row or in a column *)
Definition adjacent (p q : nat * nat) : Prop :=
  (fst q = fst p /\ (snd q = snd p + 1 \/ snd p = snd q + 1)) \/
  (snd q = snd p /\ (fst q = fst p + 1 \/ fst p = fst q + 1)).

(** the rest length of the spring between two adjacent cells: [restWidth]
    within a row, [restHeight] between rows *)
Definition rest_between (sb : SoftBody F) (p q : nat * nat) : F :=
  if fst p =? fst q then restWidth sb else restHeight sb.

(** the last statement of the body of the loop: the external force, in row 0 *)
Definition add_external (externalForce : vec3 F) (p : nat * nat) (gr : grid F)
    : grid F :=
  if (Z.of_nat (fst p) =? 0)%Z
  then alter_cell (addForce externalForce) (fst p) (snd p) gr
  else gr.
End Blocks.

(** ** The reference composition of the step

    Written from the description of the step, not from the loops: the forces
    on every cell are computed from one snapshot [gr0] of the grid, the state
    before the step; only then is every cell integrated. *)

Section Reference.
Context {F : Type} `{Arith F}.
Implicit Types (sb : SoftBody F) (gr : grid F) (self : RigidBody F).

(** the contribution of one neighbour direction, when the neighbour exists *)
Definition pulled sb (rest : F) (nb : option (RigidBody F)) self
    : RigidBody F :=
  match nb with
  | Some nb => addForce (neighbor_force sb rest self nb) self
  | None => self
  end.

(** the spring and damping forces on the cell [(i, j)], one contribution per
    existing neighbour, the neighbours read in [gr0] *)
Definition springs_from sb (gr0 : grid F) (i j : nat) self : RigidBody F :=
  let self := if has_above i
              then pulled sb (restHeight sb) (cell gr0 (i - 1) j) self
              else self in
  let self := if has_below sb i
              then pulled sb (restHeight sb) (cell gr0 (i + 1) j) self
              else self in
  let self := if has_left j
              then pulled sb (restWidth sb) (cell gr0 i (j - 1)) self
              else self in
  if has_right sb j
  then pulled sb (restWidth sb) (cell gr0 i (j + 1)) self
  else self.

(** all the forces on the cell [(i, j)]: the external force is injected into
    row 0 *)
Definition forces_from sb (externalForce : vec3 F) (gr0 : grid F)
    (i j : nat) self : RigidBody F :=
  let self := springs_from sb gr0 i j self in
  if (Z.of_nat i =? 0)%Z then addForce externalForce self else self.

(** Phase A of the reference: every cell of the snapshot, with its forces *)
Definition accumulate_ref sb (externalForce : vec3 F) (gr0 : grid F) : grid F :=
  imap (fun i => imap (fun j => forces_from sb externalForce gr0 i j)) gr0.

(** Phase B of the reference: every cell integrated *)
Definition integrate_ref (dt : F) (gr : grid F) : grid F :=
  fmap (M:=list) (fmap (M:=list) (IntegrateLinear dt)) gr.

Definition Step_ref (dt : F) (externalForce : vec3 F) sb : SoftBody F :=
  mkSoftBody (subdivisionsX sb) (subdivisionsY sb) (restHeight sb)
             (restWidth sb) (numRigidBodies sb)
             (integrate_ref dt (accumulate_ref sb externalForce (bodies sb)))
             (coefficient sb) (dampening sb).

End Reference.

(** ** Predicates of the statements *)

Section Predicates.
Context {F : Type} `{Arith F}.
Implicit Types (sb : SoftBody F) (gr : grid F).

(** Two grids whose cells have the same positions and velocities. *)
Definition same_motion gr gr0 : Prop :=
  forall a b,
    option_Forall2 (fun c c0 => position c = position c0 /\
                                velocity c = velocity c0)
                   (cell gr a b) (cell gr0 a b).

(** [k] times [s], by repeated addition *)
Definition times (k : nat) (s : F) : F := Nat.iter k (fun acc => fadd acc s) fzero.

(** 1 when the block guarded by [cond] finds its neighbour, else 0 *)
Definition present (cond : bool) (nb : option (RigidBody F)) : nat :=
  if cond then match nb with Some _ => 1 | None => 0 end else 0.

(** the number of neighbours of the cell [(i, j)]: of blocks of [update] that
    run for it *)
Definition neighbor_count sb (gr0 : grid F) (i j : nat) : nat :=
  present (has_above i) (cell gr0 (i - 1) j) +
  present (has_below sb i) (cell gr0 (i + 1) j) +
  present (has_left j) (cell gr0 i (j - 1)) +
  present (has_right sb j) (cell gr0 i (j + 1)).

(** the spring to the neighbour [nb], if there is one, exerts no force *)
Definition relaxed sb (rest : F) (self : RigidBody F)
    (nb : option (RigidBody F)) : Prop :=
  forall n, nb = Some n -> spring_part sb rest self n = vzero.

(** every block of [update] that runs for the cell [(i, j)] finds a relaxed
    spring *)
Definition springs_relaxed sb (gr0 : grid F) (i j : nat)
    (self : RigidBody F) : Prop :=
  (has_above i = true ->
   relaxed sb (restHeight sb) self (cell gr0 (i - 1) j)) /\
  (has_below sb i = true ->
   relaxed sb (restHeight sb) self (cell gr0 (i + 1) j)) /\
  (has_left j = true ->
   relaxed sb (restWidth sb) self (cell gr0 i (j - 1))) /\
  (has_right sb j = true ->
   relaxed sb (restWidth sb) self (cell gr0 i (j + 1))).

(** A body in the plane z = 0: no z-component in its position, velocity, net
    force and net impulse.  What counts as no component is a parameter, since
    single precision has two zeros. *)
Definition plane_body (Zero : F -> Prop) (c : RigidBody F) : Prop :=
  Zero (vz (position c)) /\ Zero (vz (velocity c)) /\
  Zero (vz (netForce c)) /\ Zero (vz (netImpulse c)).

Definition plane (Zero : F -> Prop) gr : Prop :=
  forall i j c, cell gr i j = Some c -> plane_body Zero c.

(** in exact arithmetic the z-components are the zero of the ring *)
Definition planar_body : RigidBody F -> Prop := plane_body (fun s => s = fzero).
Definition planar : grid F -> Prop := plane (fun s => s = fzero).
End Predicates.

(** ** The formula of the spec for the integrator *)

Section Textbook.
Context {F : Type} `{Arith F}.

(** Follows the spec: [velocity + a*dt] with [a = inverseMass * netForce]. *)
Definition textbook_velocity (dt : F) (body : RigidBody F) : vec3 F :=
  let a := smul (inverseMass body) (netForce body) in
  vadd (velocity body) (vmuls a dt).

(** Follows the spec: [position + velocity*dt + 0.5*a*dt^2], summed from the
    left, [dt^2] as the product [dt * dt]. *)
Definition textbook_position (dt : F) (body : RigidBody F) : vec3 F :=
  let a := smul (inverseMass body) (netForce body) in
  vadd (vadd (position body) (vmuls (velocity body) dt))
       (vmuls (smul fhalf a) (fmul dt dt)).
End Textbook.

(** ** IEEE single precision *)

(** [float] is binary32: 24 bits of precision, infinities at exponent 128,
    rounding to nearest even.  The operations are those of the Standard
    Library's [SpecFloat] at these parameters. *)
Module Binary32.

Definition prec : Z := 24.

Definition emax : Z := 128.

Definition float : Type := spec_float.

Definition add : float -> float -> float := SFadd prec emax.

Definition sub : float -> float -> float := SFsub prec emax.

Definition mul : float -> float -> float := SFmul prec emax.

Definition div : float -> float -> float := SFdiv prec emax.

Definition sqrt : float -> float := SFsqrt prec emax.

Definition opp : float -> float := SFopp.

(** the value [m * 2^e], rounded *)
Definition of_Z_exp (m e : Z) : float := binary_normalize prec emax m e false.

(** conversion of an [int] *)
Definition of_Z (n : Z) : float := of_Z_exp n 0.

Definition zero : float := S754_zero false.

Definition nan : float := S754_nan.

Definition half : float := Eval vm_compute in of_Z_exp 1 (-1).

Definition one : float := Eval vm_compute in of_Z 1.

Definition two : float := Eval vm_compute in of_Z 2.

(** the [double] nearest to [n / d], then the [float] nearest to that: how a
    literal such as [0.012] reaches a [float] parameter *)
Definition of_double (x : spec_float) : float :=
  match x with
  | S754_finite s m e => binary_normalize prec emax (cond_Zopp s (Zpos m)) e s
  | _ => x
  end.

Definition literal (n d : Z) : float :=
  of_double (SFdiv 53 1024 (binary_normalize 53 1024 n 0 false)
                           (binary_normalize 53 1024 d 0 false)).

(** [==] on floats: the two zeros are equal, NaN equals nothing *)
Definition eqb : float -> float -> bool := SFeqb.

(** one of the two zeros *)
Definition is_zero (x : float) : bool :=
  match x with S754_zero _ => true | _ => false end.

(** neither an infinity nor NaN *)
Definition finite (x : float) : bool :=
  match x with S754_zero _ | S754_finite _ _ _ => true | _ => false end.

(** the same float, but perhaps for the sign of a zero: what [==] sees as
    equal, and NaN beside NaN *)
Definition same (x y : float) : Prop :=
  x = y \/ (is_zero x = true /\ is_zero y = true).
End Binary32.

(** [powf(x, 2)] is taken to be the rounded product [x * x]; the C library
    does not promise it, see [binary32_powf] below. *)
#[export] Instance binary32 : Arith Binary32.float := {|
  fzero := Binary32.zero;
  fhalf := Binary32.half;
  fone := Binary32.one;
  ftwo := Binary32.two;
  fadd := Binary32.add;
  fsub := Binary32.sub;
  fmul := Binary32.mul;
  fdiv := Binary32.div;
  fopp := Binary32.opp;
  fsqrt := Binary32.sqrt;
  fsquare := fun x => Binary32.mul x x;
  of_int := Binary32.of_Z
|}.

(** Single precision with [powf(x, 2)] left open: the C library does not
    promise a correctly rounded power, so a statement about the value of
    [powf(dt, 2)] is made for every function [powf2] in its place. *)
Definition binary32_powf (powf2 : Binary32.float -> Binary32.float)
    : Arith Binary32.float := {|
  fzero := Binary32.zero;
  fhalf := Binary32.half;
  fone := Binary32.one;
  ftwo := Binary32.two;
  fadd := Binary32.add;
  fsub := Binary32.sub;
  fmul := Binary32.mul;
  fdiv := Binary32.div;
  fopp := Binary32.opp;
  fsqrt := Binary32.sqrt;
  fsquare := powf2;
  of_int := Binary32.of_Z
|}.

Section SinglePredicates.
Import Binary32.

(** the vector whose three components are NaN *)
Definition vnan : vec3 float := vsplat nan.

Definition vsame (u v : vec3 float) : Prop :=
  same (vx u) (vx v) /\ same (vy u) (vy v) /\ same (vz u) (vz v).

(** in single precision a z-component is absent when it is one of the zeros *)
Definition flat_body : RigidBody float -> Prop :=
  plane_body (fun s => is_zero s = true).
Definition flat : grid float -> Prop := plane (fun s => is_zero s = true).

(** The two factors that one block of [update] multiplies the displacement to
    the neighbour by are finite: the inverse length, infinite for a coincident
    neighbour, and Hooke's factor. *)
Definition block_regular (sb : SoftBody float) (rest : float)
    (self : RigidBody float) (nb : option (RigidBody float)) : bool :=
  match nb with
  | None => true
  | Some n =>
      let d := vsub (position n) (position self) in
      finite (inversesqrt (dot d d)) &&
      finite (mul (coefficient sb) (sub (length3 d) rest))
  end.

(** the inverse mass of the cell and the factors of every block that runs for
    it are finite *)
Definition cell_regular (sb : SoftBody float) (gr : grid float) (i j : nat)
    (self : RigidBody float) : bool :=
  finite (inverseMass self) &&
  (if has_above i
   then block_regular sb (restHeight sb) self (cell gr (i - 1) j) else true) &&
  (if has_below sb i
   then block_regular sb (restHeight sb) self (cell gr (i + 1) j) else true) &&
  (if has_left j
   then block_regular sb (restWidth sb) self (cell gr i (j - 1)) else true) &&
  (if has_right sb j
   then block_regular sb (restWidth sb) self (cell gr i (j + 1)) else true).

(** a step from [sb] with [dt] multiplies the z-components by finite factors
    only *)
Definition regular (dt : float) (sb : SoftBody float) : Prop :=
  finite dt = true /\ finite (mul dt dt) = true /\
  finite (dampening sb) = true /\
  forall i j c, cell (bodies sb) i j = Some c ->
                cell_regular sb (bodies sb) i j c = true.
End SinglePredicates.

(** ** Predicates of the statements in single precision *)

Section SingleStatements.
Import Binary32.

(** [x == y] holds in the program, or both are NaN *)
Definition agree (x y : float) : Prop :=
  eqb x y = true \/ (x = nan /\ y = nan).

Definition vagree (u v : vec3 float) : Prop :=
  agree (vx u) (vx v) /\ agree (vy u) (vy v) /\ agree (vz u) (vz v).

(** every component is one of the zeros *)
Definition is_vzero (v : vec3 float) : bool :=
  is_zero (vx v) && is_zero (vy v) && is_zero (vz v).

(** the spring to the neighbour [nb], if there is one, exerts no force:
    Hooke's term is a zero in every component *)
Definition slack (sb : SoftBody float) (rest : float)
    (self : RigidBody float) (nb : option (RigidBody float)) : Prop :=
  forall n, nb = Some n -> is_vzero (spring_part sb rest self n) = true.

(** every block of [update] that runs for the cell [(i, j)] finds a slack
    spring *)
Definition springs_slack (sb : SoftBody float) (gr0 : grid float)
    (i j : nat) (self : RigidBody float) : Prop :=
  (has_above i = true ->
   slack sb (restHeight sb) self (cell gr0 (i - 1) j)) /\
  (has_below sb i = true ->
   slack sb (restHeight sb) self (cell gr0 (i + 1) j)) /\
  (has_left j = true ->
   slack sb (restWidth sb) self (cell gr0 i (j - 1))) /\
  (has_right sb j = true ->
   slack sb (restWidth sb) self (cell gr0 i (j + 1))).

(** the damping term [velocity * dampening] of the body, subtracted [k]
    times from the zero vector, each difference rounded *)
Definition damped (k : nat) (sb : SoftBody float) (c : RigidBody float)
    : vec3 float :=
  Nat.iter k (fun f => vsub f (damping_part sb c)) vzero.
End SingleStatements.

(** ** The real numbers, an exact arithmetic *)

#[export] Instance real_arith : Arith R := {|
  fzero := 0%R;
  fhalf := (/ 2)%R;
  fone := 1%R;
  ftwo := 2%R;
  fadd := Rplus;
  fsub := Rminus;
  fmul := Rmult;
  fdiv := Rdiv;
  fopp := Ropp;
  fsqrt := R_sqrt.sqrt;
  fsquare := fun x => (x * x)%R;
  of_int := IZR
|}.

#[export] Instance real_exact : ExactArith R := {|
  exact_ring := RTheory;
  exact_square := fun x => eq_refl
|}.

(** ** Scenarios in single precision *)

Module Scenario.
Import Binary32.

(** the physics step of main.cpp, [physicsStep = 0.012] passed as a [float] *)
Definition physicsStep : float := Eval vm_compute in literal 12 1000.

(** a vertex as [main] paints it, at a position *)
Definition vertex_at (px py : float) : Vertex.t float :=
  Vertex.mk px py zero zero one one one.

(** *** The 2 x 2 body at rest *)

(** [SoftBody(1.0f, 1.0f, 2, 2, 25.0f, 0.5f)] *)
Definition square : SoftBody float := newSoftBody one one 2 2 (of_Z 25) half.

Definition square_lattice : Mesh float :=
  mkMesh [vertex_at zero zero; vertex_at half zero;
          vertex_at zero half; vertex_at half half].

Definition minus_half : float := opp half.

(** the force along x that the left mouse button applies *)
Definition push : vec3 float := mkvec3 two zero zero.

(** the 2 x 2 body at rest, but for the corner (0, 0), which moves along x
    with speed 1 *)
Definition corner_moving : SoftBody float :=
  mkSoftBody 2 2 half half 4
    (alter_cell (fun c => mkRigidBody (position c) (mkvec3 one zero zero)
                            (acceleration c) (netForce c) (netImpulse c)
                            (inverseMass c)) 0 0 (bodies square))
    (of_Z 25) half.

(** *** A grid of 3 columns and 2 rows *)

(** [SoftBody(1.0f, 1.0f, 3, 2, 25.0f, 0.5f)] *)
Definition wide : SoftBody float := newSoftBody one one 3 2 (of_Z 25) half.

(** six vertices, none of them at a position of the grid *)
Definition far : Vertex.t float := vertex_at (of_Z 7) (of_Z 7).

Definition wide_lattice : Mesh float := mkMesh (replicate 6 far).

Definition xyz (v : Vertex.t float) : vec3 float :=
  mkvec3 (Vertex.x v) (Vertex.y v) (Vertex.z v).

(** *** One cell alone *)

(** a grid of one cell that moves along x with speed 1; damping 0.5 *)
Definition lone : SoftBody float :=
  mkSoftBody 1 1 one one 1
    [[mkRigidBody vzero (mkvec3 one zero zero) vzero vzero vzero one]]
    (of_Z 25) half.

(** a grid of one cell at rest in the plane z = 0, whose net force before the
    step has the z-component 1 *)
Definition kicked : SoftBody float :=
  mkSoftBody 1 1 one one 1
    [[mkRigidBody vzero vzero vzero (mkvec3 zero zero one) vzero one]]
    (of_Z 25) half.

(** *** Two cells in one row *)

(** a body at rest at [(px, 0, 0)], of inverse mass 1 *)
Definition resting (px : float) : RigidBody float :=
  mkRigidBody (mkvec3 px zero zero) vzero vzero vzero vzero one.

(** two bodies at the origin, side by side in the grid *)
Definition at_origin : RigidBody float := resting zero.
Definition coincident : SoftBody float :=
  mkSoftBody 2 1 one one 2 [[at_origin; at_origin]] (of_Z 25) half.

(** two bodies at rest at distinct places, [2^-80] apart *)
Definition tiny : float := Eval vm_compute in of_Z_exp 1 (-80).
Definition near : SoftBody float :=
  mkSoftBody 2 1 one one 2 [[resting zero; resting tiny]] (of_Z 25) half.

(** *** Bodies for the integrator *)

(** half a unit in the last place of 1 *)
Definition half_ulp : float := Eval vm_compute in of_Z_exp 1 (-24).

(** a body at [x = 1] whose velocity term and acceleration term are each
    half a unit in the last place of 1 when [dt = 1] *)
Definition tie : RigidBody float :=
  mkRigidBody (mkvec3 one zero zero) (mkvec3 half_ulp zero zero) vzero
              (mkvec3 (of_Z_exp 1 (-23)) zero zero) vzero one.

(** a body built with mass 0: its inverse mass [1 / 0] is infinite *)
Definition massless : RigidBody float :=
  mkRigidBody vzero vzero vzero (mkvec3 one zero zero) vzero (div one zero).

(** a body at [(0, 1, 0)] that moves along x, pulled down *)
Definition thrown : RigidBody float :=
  mkRigidBody (mkvec3 zero one zero) (mkvec3 one zero zero) vzero
              (mkvec3 zero (opp two) zero) vzero one.

(** *** A grid of 4 columns and 2 rows, one cell moving *)

(** [SoftBody(1.0f, 1.0f, 4, 2, 25.0f, 0.1f)] *)
Definition strip : SoftBody float :=
  newSoftBody one one 4 2 (of_Z 25) (literal 1 10).

(** the cell (0, 1) of the strip, moving along x with speed 0.03 *)
Definition drifter : RigidBody float :=
  mkRigidBody (mkvec3 (opp (of_Z_exp 1 (-2))) minus_half zero)
              (mkvec3 (literal 3 100) zero zero) vzero vzero vzero one.

(** the strip at rest, but for the cell (0, 1) *)
Definition drifting : SoftBody float :=
  mkSoftBody 4 2 (restHeight strip) (restWidth strip) 8
    (alter_cell (fun _ => drifter) 0 1 (bodies strip))
    (of_Z 25) (literal 1 10).
End Scenario.

(** ** Scenarios over the real numbers *)

Module RealScenario.
Open Scope R_scope.

Definition body_at (px py : R) (vel : vec3 R) : RigidBody R :=
  mkRigidBody (mkvec3 px py 0) vel vzero vzero vzero 1.

(** a grid of one cell that moves along x with speed 1; damping 1/2 *)
Definition lone : SoftBody R :=
  mkSoftBody 1 1 1 1 1 [[body_at 0 0 (mkvec3 1 0 0)]] 25 (/ 2).

End RealScenario.

(** * Part II: lemmas and theorems *)

Lemma vec3_eq {F : Type} (u v : vec3 F) :
  vx u = vx v -> vy u = vy v -> vz u = vz v -> u = v.
Proof. destruct u, v. simpl. by intros -> -> ->. Qed.

(** * Facts about the grid and the loops *)

Section GridFacts.
Context {F : Type}.
Implicit Types (gr : grid F) (f h : RigidBody F -> RigidBody F).

Lemma cell_alter_cell f i j gr a b :
  cell (alter_cell f i j gr) a b =
    if decide (a = i /\ b = j) then f <$> cell gr a b else cell gr a b.
Proof.
  unfold cell, alter_cell.
  destruct (decide (a = i)) as [->|Hne].
  - rewrite list_lookup_alter_eq.
    destruct (gr !! i) as [row|]; simpl.
    + destruct (decide (b = j)) as [->|Hb].
      * rewrite list_lookup_alter_eq. by rewrite decide_True.
      * rewrite list_lookup_alter_ne by congruence.
        rewrite decide_False; [done|]. intros [_ ?]. congruence.
    + by case_decide.
  - rewrite list_lookup_alter_ne by congruence.
    rewrite decide_False; [done|]. intros [? _]. congruence.
Qed.

Lemma cell_alter_cell_other f i j gr a b :
  (a, b) <> (i, j) -> cell (alter_cell f i j gr) a b = cell gr a b.
Proof.
  intros Hne. rewrite cell_alter_cell, decide_False; [done|].
  intros [-> ->]. by apply Hne.
Qed.

Lemma alter_cell_compose f h i j gr :
  alter_cell f i j (alter_cell h i j gr) = alter_cell (f ∘ h) i j gr.
Proof.
  unfold alter_cell. rewrite list_alter_alter_eq.
  apply list_alter_ext; [|done]. intros row _. simpl.
  apply list_alter_alter_eq.
Qed.

Lemma alter_cell_ext f h i j gr :
  (forall c, cell gr i j = Some c -> f c = h c) ->
  alter_cell f i j gr = alter_cell h i j gr.
Proof.
  intros Hfh. unfold alter_cell.
  apply list_alter_ext; [|done]. intros row Hrow.
  apply list_alter_ext; [|done]. intros c Hc.
  apply Hfh. unfold cell. by rewrite Hrow.
Qed.

Lemma alter_cell_id f i j gr :
  (forall c, cell gr i j = Some c -> f c = c) -> alter_cell f i j gr = gr.
Proof.
  intros Hf. rewrite (alter_cell_ext f (fun c => c)) by done.
  unfold alter_cell. apply list_alter_id. intros row.
  by apply list_alter_id.
Qed.

Lemma cell_Some_shape ny nx gr i j c :
  grid_shape ny nx gr -> cell gr i j = Some c -> i < ny /\ j < nx.
Proof.
  intros [Hlen Hrows]. unfold cell.
  destruct (gr !! i) as [row|] eqn:Hrow; [|done]. simpl. intros Hc.
  apply lookup_lt_Some in Hrow as Hi. apply lookup_lt_Some in Hc.
  rewrite Forall_lookup in Hrows. rewrite (Hrows _ _ Hrow) in Hc. lia.
Qed.
End GridFacts.

Section LoopFacts.
Context {A : Type}.

(** A sweep that rewrites slot [k] with [f k], for [k] from 0 up, is an
    indexed map. *)
Lemma sweep_shift (f : nat -> A -> A) (xs : list A) (x0 : A) (ks : list nat) :
  foldl (fun l k => alter (f k) k l) (x0 :: xs) (S <$> ks) =
  x0 :: foldl (fun l k => alter (f (S k)) k l) xs ks.
Proof.
  revert xs. induction ks as [|k ks IH]; intros xs; [done|].
  simpl. apply IH.
Qed.

Lemma sweep_imap (f : nat -> A -> A) (xs : list A) :
  foldl (fun l k => alter (f k) k l) xs (seq 0 (length xs)) = imap f xs.
Proof.
  revert f. induction xs as [|x0 xs IH]; intros f; [done|].
  simpl. rewrite <- fmap_S_seq, sweep_shift. f_equal.
  apply (IH (f ∘ S)).
Qed.

(** A loop whose body keeps an invariant can have its body replaced by one
    that agrees with it under the invariant. *)
Lemma foldl_invariant {S B : Type} (P : S -> Prop) (body body' : S -> B -> S)
    (s : S) (ks : list B) :
  (forall s k, P s -> body s k = body' s k /\ P (body s k)) ->
  P s -> foldl body s ks = foldl body' s ks /\ P (foldl body s ks).
Proof.
  intros Hstep. revert s. induction ks as [|k ks IH]; intros s Hs; [done|].
  simpl. destruct (Hstep s k Hs) as [Heq HP].
  rewrite <- Heq. by apply IH.
Qed.

Lemma for_cells_invariant {S : Type} (P : S -> Prop) ny nx
    (body body' : nat -> nat -> S -> S) (s : S) :
  (forall i j s, P s -> body i j s = body' i j s /\ P (body i j s)) ->
  P s ->
  for_cells ny nx body s = for_cells ny nx body' s /\
  P (for_cells ny nx body s).
Proof.
  intros Hstep Hs. unfold for_cells.
  apply (foldl_invariant P); [|done].
  intros s' i Hs'. apply (foldl_invariant P); [|done].
  intros s'' j Hs''. by apply Hstep.
Qed.

(** A loop on a pair whose first component does not look at the second. *)
Lemma for_cells_fst {S T : Type} ny nx (body : nat -> nat -> S * T -> S * T)
    (body1 : nat -> nat -> S -> S) (st : S * T) :
  (forall i j st, fst (body i j st) = body1 i j (fst st)) ->
  fst (for_cells ny nx body st) = for_cells ny nx body1 (fst st).
Proof.
  intros Hfst. unfold for_cells.
  generalize (seq 0 ny) as ixs. intros ixs. revert st.
  induction ixs as [|i ixs IH]; intros st; [done|].
  simpl. rewrite IH. f_equal.
  generalize (seq 0 nx) as js. intros js. revert st.
  induction js as [|j js IHj]; intros st; [done|].
  simpl. rewrite IHj. f_equal. apply Hfst.
Qed.

End LoopFacts.

Section SweepGrid.
Context {F : Type}.

Lemma row_sweep (f : nat -> RigidBody F -> RigidBody F) i (js : list nat)
    (gr : grid F) :
  foldl (fun gr j => alter_cell (f j) i j gr) gr js =
  alter (fun row => foldl (fun l j => alter (f j) j l) row js) i gr.
Proof.
  revert gr. induction js as [|j js IH]; intros gr.
  - simpl. symmetry. by apply list_alter_id.
  - simpl. rewrite IH. unfold alter_cell. rewrite list_alter_alter_eq. done.
Qed.

(** Rewriting every cell of a grid of the right shape, cell by cell in the
    order of the loops, is the indexed map over rows and columns. *)
Lemma for_cells_alter ny nx (f : nat -> nat -> RigidBody F -> RigidBody F)
    (gr : grid F) :
  grid_shape ny nx gr ->
  for_cells ny nx (fun i j => alter_cell (f i j) i j) gr =
  imap (fun i => imap (f i)) gr.
Proof.
  intros [Hlen Hrows]. unfold for_cells.
  transitivity
    (foldl (fun l i => alter (fun row => imap (f i) row) i l) gr (seq 0 ny)).
  - assert (Hinv :
      forall (ixs : list nat) (g1 : grid F),
        Forall (fun row => length row = nx) g1 ->
        foldl (fun s i => foldl (fun s j => alter_cell (f i j) i j s) s (seq 0 nx))
              g1 ixs =
        foldl (fun l i => alter (fun row => imap (f i) row) i l) g1 ixs).
    { induction ixs as [|i ixs IH]; intros g1 Hg1; [done|].
      simpl. rewrite row_sweep.
      assert (Hrow : alter (fun row =>
                  foldl (fun l j => alter (f i j) j l) row (seq 0 nx)) i g1
                = alter (fun row => imap (f i) row) i g1).
      { apply list_alter_ext; [|done]. intros row Hrow.
        rewrite Forall_lookup in Hg1. rewrite <- (Hg1 _ _ Hrow).
        apply sweep_imap. }
      rewrite Hrow. apply IH.
      apply Forall_alter; [done|]. intros row _ Hl.
      by rewrite length_imap. }
    by apply Hinv.
  - subst ny. apply (sweep_imap (fun i row => imap (f i) row)).
Qed.

End SweepGrid.

(** * The step in two phases *)

Section TwoPhase.
Context {F : Type} `{Arith F}.
Implicit Types (sb : SoftBody F) (gr : grid F) (self : RigidBody F).

Lemma same_motion_refl gr : same_motion gr gr.
Proof. intros a b. destruct (cell gr a b); by constructor. Qed.

Lemma position_addForce f self : position (addForce f self) = position self.
Proof. done. Qed.

Lemma velocity_addForce f self : velocity (addForce f self) = velocity self.
Proof. done. Qed.

Lemma pulled_motion sb rest nb self :
  position (pulled sb rest nb self) = position self /\
  velocity (pulled sb rest nb self) = velocity self.
Proof. by destruct nb. Qed.

Lemma forces_from_motion sb ext gr0 i j self :
  position (forces_from sb ext gr0 i j self) = position self /\
  velocity (forces_from sb ext gr0 i j self) = velocity self.
Proof.
  unfold forces_from, springs_from.
  repeat match goal with
         | |- context [if ?c then _ else _] => destruct c
         end;
    rewrite ?position_addForce, ?velocity_addForce;
    repeat match goal with
           | |- context [pulled ?s ?r ?n ?c] =>
               destruct (pulled_motion s r n c) as [-> ->]
           end; done.
Qed.

(** One [if] block of the loop is an assignment to the cell [(i, j)]. *)
Lemma pull_alter sb rest ni nj i j gr :
  pull sb rest ni nj i j gr =
  alter_cell (pulled sb rest (cell gr ni nj)) i j gr.
Proof.
  unfold pull. destruct (cell gr ni nj) as [nb|] eqn:Hnb.
  - destruct (cell gr i j) as [self|] eqn:Hself.
    + apply alter_cell_ext. intros c Hc. simpl. congruence.
    + symmetry. apply alter_cell_id. congruence.
  - symmetry. by apply alter_cell_id.
Qed.

Lemma cell_pull sb rest ni nj i j gr (self nb : RigidBody F) :
  cell gr i j = Some self -> cell gr ni nj = Some nb ->
  cell (pull sb rest ni nj i j gr) i j =
  Some (addForce (vsub (spring_part sb rest self nb) (damping_part sb self)) self).
Proof.
  intros Hself Hnb. rewrite pull_alter, cell_alter_cell, decide_True by done.
  by rewrite Hself, Hnb.
Qed.

Lemma pull_after sb rest ni nj i j (f : RigidBody F -> RigidBody F) gr :
  (ni, nj) <> (i, j) ->
  pull sb rest ni nj i j (alter_cell f i j gr) =
  alter_cell (fun c => pulled sb rest (cell gr ni nj) (f c)) i j gr.
Proof.
  intros Hne.
  rewrite pull_alter, cell_alter_cell_other by done.
  by rewrite alter_cell_compose.
Qed.

Lemma cell_forces_after sb ext i j (f : RigidBody F -> RigidBody F) gr :
  cell_forces sb ext i j (alter_cell f i j gr) =
  alter_cell (fun c => forces_from sb ext gr i j (f c)) i j gr.
Proof.
  assert (Hup : has_above i = true -> (i - 1, j) <> (i, j)).
  { unfold has_above. intros Hi%Z.ltb_lt Heq. injection Heq. lia. }
  assert (Hdown : (i + 1, j) <> (i, j)) by (intros Heq; injection Heq; lia).
  assert (Hleft : has_left j = true -> (i, j - 1) <> (i, j)).
  { unfold has_left. intros Hj%Z.ltb_lt Heq. injection Heq. lia. }
  assert (Hright : (i, j + 1) <> (i, j)) by (intros Heq; injection Heq; lia).
  unfold cell_forces, forces_from, springs_from.
  destruct (has_above i); destruct (has_below sb i);
    destruct (has_left j); destruct (has_right sb j);
    destruct (Z.of_nat i =? 0)%Z;
    rewrite ?pull_after by auto; rewrite ?alter_cell_compose;
    reflexivity.
Qed.

(** The body of the first loop is one assignment to the cell [(i, j)], by the
    function of the reference read in the current grid. *)
Lemma cell_forces_alter sb ext i j gr :
  cell_forces sb ext i j gr = alter_cell (forces_from sb ext gr i j) i j gr.
Proof.
  rewrite <- (alter_cell_id (fun c => c) i j gr) at 1 by done.
  apply cell_forces_after.
Qed.

(** The forces on a cell look at the rest of the grid only through the
    positions of the neighbours. *)
Lemma pulled_same_motion sb rest (nb nb0 : option (RigidBody F)) self :
  option_Forall2 (fun c c0 => position c = position c0 /\
                              velocity c = velocity c0) nb nb0 ->
  pulled sb rest nb self = pulled sb rest nb0 self.
Proof.
  intros [c c0 [Hp _]|]; [|done].
  unfold pulled, neighbor_force, spring_part. by rewrite Hp.
Qed.

Lemma forces_from_same_motion sb ext gr gr0 i j self :
  same_motion gr gr0 ->
  forces_from sb ext gr i j self = forces_from sb ext gr0 i j self.
Proof.
  intros Hsame. unfold forces_from, springs_from.
  by rewrite !(fun a b => pulled_same_motion sb _ _ _ _ (Hsame a b)).
Qed.

Lemma same_motion_alter_cell (f : RigidBody F -> RigidBody F) i j gr gr0 :
  (forall c, position (f c) = position c /\ velocity (f c) = velocity c) ->
  same_motion gr gr0 -> same_motion (alter_cell f i j gr) gr0.
Proof.
  intros Hf Hsame a b. rewrite cell_alter_cell.
  specialize (Hsame a b). case_decide; [|done].
  destruct Hsame as [c c0 [Hp Hv]|]; constructor.
  destruct (Hf c) as [-> ->]. done.
Qed.

(** Phase A of the loops, on the state [gr0] before the step, assigns to
    every cell the forces computed from [gr0]. *)
Lemma accumulate_from_snapshot sb ext gr0 :
  accumulate sb ext gr0 =
  for_cells (Z.to_nat (subdivisionsY sb)) (Z.to_nat (subdivisionsX sb))
            (fun i j => alter_cell (forces_from sb ext gr0 i j) i j) gr0.
Proof.
  unfold accumulate.
  apply (for_cells_invariant (fun gr => same_motion gr gr0));
    [|apply same_motion_refl].
  intros i j gr Hsame. rewrite cell_forces_alter. split.
  - apply alter_cell_ext. intros c _. by apply forces_from_same_motion.
  - apply same_motion_alter_cell; [|done].
    intros c. apply forces_from_motion.
Qed.

Lemma accumulate_refines sb ext :
  well_formed sb ->
  accumulate sb ext (bodies sb) = accumulate_ref sb ext (bodies sb).
Proof.
  intros Hwf. rewrite accumulate_from_snapshot.
  by apply for_cells_alter.
Qed.

Lemma accumulate_ref_shape ny nx sb ext gr0 :
  grid_shape ny nx gr0 -> grid_shape ny nx (accumulate_ref sb ext gr0).
Proof.
  intros [Hlen Hrows]. unfold accumulate_ref. split.
  - by rewrite length_imap.
  - rewrite Forall_lookup. intros i row.
    rewrite list_lookup_imap. rewrite Forall_lookup in Hrows.
    destruct (gr0 !! i) as [row0|] eqn:Hrow0; [|done].
    intros [= <-]. rewrite length_imap. by eapply Hrows.
Qed.

(** Phase B of the loops, as far as the bodies go, integrates every cell. *)
Lemma integrate_all_bodies sb dt gr vs :
  fst (integrate_all sb dt (gr, vs)) =
  for_cells (Z.to_nat (subdivisionsY sb)) (Z.to_nat (subdivisionsX sb))
            (fun i j => alter_cell (IntegrateLinear dt) i j) gr.
Proof.
  unfold integrate_all.
  rewrite (for_cells_fst _ _ (integrate_cell sb dt)
             (fun i j => alter_cell (IntegrateLinear dt) i j)); [done|].
  intros i j st. unfold integrate_cell.
  by destruct (cell (alter_cell (IntegrateLinear dt) i j (fst st)) i j).
Qed.

Lemma integrate_all_refines sb dt gr vs :
  grid_shape (Z.to_nat (subdivisionsY sb)) (Z.to_nat (subdivisionsX sb)) gr ->
  fst (integrate_all sb dt (gr, vs)) = integrate_ref dt gr.
Proof.
  intros Hshape. rewrite integrate_all_bodies.
  rewrite (for_cells_alter _ _ (fun _ _ => IntegrateLinear dt)) by done.
  unfold integrate_ref.
  rewrite <- (imap_const (fmap (M:=list) (IntegrateLinear dt))).
  apply imap_ext. intros i row _. simpl. apply imap_const.
Qed.

(** the bodies after the loops of [Step] are those of the reference *)
Lemma Step_bodies_refine dt ext sb vs :
  well_formed sb ->
  fst (integrate_all sb dt (accumulate sb ext (bodies sb), vs)) =
  integrate_ref dt (accumulate_ref sb ext (bodies sb)).
Proof.
  intros Hwf. rewrite accumulate_refines by done.
  apply integrate_all_refines. by apply accumulate_ref_shape.
Qed.

(** C1.  The step is two-phase: on every well-formed soft body, for every
    [dt] and external force, the bodies that [Step] leaves are those of the
    reference composition, which computes the forces on every cell from the
    positions and velocities before the step and only then integrates every
    cell. *)
Theorem Step_two_phase (dt : F) (externalForce : vec3 F) sb (lattice : Mesh F) :
  well_formed sb ->
  fst (Step dt externalForce (sb, lattice)) = Step_ref dt externalForce sb.
Proof.
  intros Hwf. unfold Step, Step_ref. simpl. f_equal.
  rewrite accumulate_refines by done.
  apply integrate_all_refines.
  by apply accumulate_ref_shape.
Qed.

End TwoPhase.

(** * What a step does to one cell *)

Section StepCells.
Context {F : Type} `{Arith F}.
Implicit Types (sb : SoftBody F) (gr : grid F) (self : RigidBody F).

Lemma cell_accumulate_ref sb ext gr0 i j :
  cell (accumulate_ref sb ext gr0) i j =
  forces_from sb ext gr0 i j <$> cell gr0 i j.
Proof.
  unfold cell, accumulate_ref. rewrite list_lookup_imap.
  destruct (gr0 !! i) as [row|]; [|done]. simpl.
  apply list_lookup_imap.
Qed.

Lemma cell_integrate_ref dt gr i j :
  cell (integrate_ref dt gr) i j = IntegrateLinear dt <$> cell gr i j.
Proof.
  unfold cell, integrate_ref. rewrite list_lookup_fmap.
  destruct (gr !! i) as [row|]; [|done]. simpl.
  apply list_lookup_fmap.
Qed.

(** the cell [(i, j)] after phase A *)
Lemma cell_accumulate sb ext i j :
  well_formed sb ->
  cell (accumulate sb ext (bodies sb)) i j =
  forces_from sb ext (bodies sb) i j <$> cell (bodies sb) i j.
Proof.
  intros Hwf. rewrite accumulate_refines by done.
  apply cell_accumulate_ref.
Qed.

(** the cell [(i, j)] after the whole step *)
Lemma cell_Step dt ext sb lattice i j :
  well_formed sb ->
  cell (bodies (fst (Step dt ext (sb, lattice)))) i j =
  (fun c => IntegrateLinear dt (forces_from sb ext (bodies sb) i j c))
    <$> cell (bodies sb) i j.
Proof.
  intros Hwf. unfold Step. simpl. rewrite Step_bodies_refine by done.
  rewrite cell_integrate_ref, cell_accumulate_ref.
  by destruct (cell (bodies sb) i j).
Qed.

Lemma Step_well_formed dt ext sb lattice :
  well_formed sb -> well_formed (fst (Step dt ext (sb, lattice))).
Proof.
  intros Hwf. unfold well_formed, Step. simpl.
  rewrite Step_bodies_refine by done.
  apply (accumulate_ref_shape _ _ sb ext) in Hwf.
  destruct Hwf as [Hlen Hrows]. unfold integrate_ref. split.
  - by rewrite length_fmap.
  - rewrite Forall_fmap. eapply Forall_impl; [exact Hrows|].
    intros row Hrow. simpl. by rewrite length_fmap.
Qed.

Lemma inverseMass_forces_from sb ext gr0 i j self :
  inverseMass (forces_from sb ext gr0 i j self) = inverseMass self.
Proof.
  unfold forces_from, springs_from, pulled.
  repeat match goal with
         | |- context [if ?c then _ else _] => destruct c
         | |- context [match ?o with Some _ => _ | None => _ end] => destruct o
         end; reflexivity.
Qed.

(** C6.  After a step of a well-formed soft body, the accumulators of every
    cell of the grid are the zero vector: [netForce] and [netImpulse] do not
    carry over into the next step. *)
Theorem Step_clears_accumulators (dt : F) (externalForce : vec3 F) sb
    (lattice : Mesh F) (i j : nat) (c : RigidBody F) :
  well_formed sb ->
  cell (bodies (fst (Step dt externalForce (sb, lattice)))) i j = Some c ->
  netForce c = vzero /\ netImpulse c = vzero.
Proof.
  intros Hwf. rewrite cell_Step by done.
  destruct (cell (bodies sb) i j) as [c0|]; [|done].
  simpl. by intros [= <-].
Qed.

(** C7.  On a well-formed soft body, phase A leaves in every cell of row 0
    the spring and damping forces plus the external force, added once; in
    every other row the cell after phase A, and the cell after the whole
    step, are the same whatever the external force is. *)
Theorem externalForce_row0_only (dt : F) (externalForce externalForce' : vec3 F)
    sb (lattice : Mesh F) :
  well_formed sb ->
  (forall j c0, cell (bodies sb) 0 j = Some c0 ->
     cell (accumulate sb externalForce (bodies sb)) 0 j =
       Some (addForce externalForce (springs_from sb (bodies sb) 0 j c0)) /\
     netForce (addForce externalForce (springs_from sb (bodies sb) 0 j c0)) =
       vadd (netForce (springs_from sb (bodies sb) 0 j c0)) externalForce) /\
  (forall i j, 0 < i ->
     cell (accumulate sb externalForce (bodies sb)) i j =
       cell (accumulate sb externalForce' (bodies sb)) i j /\
     cell (bodies (fst (Step dt externalForce (sb, lattice)))) i j =
       cell (bodies (fst (Step dt externalForce' (sb, lattice)))) i j).
Proof.
  intros Hwf. split.
  - intros j c0 Hc0. split; [|done].
    rewrite cell_accumulate, Hc0 by done. done.
  - intros i j Hi.
    assert (Hrow : (Z.of_nat i =? 0)%Z = false) by (apply Z.eqb_neq; lia).
    rewrite !cell_accumulate, !cell_Step by done.
    unfold forces_from. rewrite Hrow. done.
Qed.

End StepCells.

(** * Exact arithmetic *)

Section Exact.
Context {F : Type} `{ExactArith F}.
Implicit Types (sb : SoftBody F) (gr : grid F) (u v : vec3 F).

Add Ring exact_arith_ring : exact_ring.

(** proves an equation between vectors component by component *)
Ltac by_components := apply vec3_eq; simpl; ring.

(** In exact arithmetic, an idealisation that the program's [float] is not an
    instance of, [IntegrateLinear] agrees with the formula of the spec for a
    body with zero net impulse. *)
Lemma IntegrateLinear_exact (dt : F) (body : RigidBody F) :
  netImpulse body = vzero ->
  velocity (IntegrateLinear dt body) = textbook_velocity dt body /\
  position (IntegrateLinear dt body) = textbook_position dt body.
Proof.
  intros Himp. unfold IntegrateLinear, textbook_velocity, textbook_position.
  simpl. rewrite Himp.
  split; apply vec3_eq; simpl; rewrite ?exact_square; ring.
Qed.

(** ** Action and reaction *)

Lemma dot_vsub_swap u v : dot (vsub u v) (vsub u v) = dot (vsub v u) (vsub v u).
Proof. unfold dot, vsub. simpl. ring. Qed.

Lemma length3_vopp u : length3 (vopp u) = length3 u.
Proof.
  unfold length3. f_equal. unfold dot, vopp. simpl. ring.
Qed.

(** Hooke's term on [B] from [A] is the opposite of the term on [A] from [B],
    for one rest length. *)
Lemma spring_part_opposite sb (rest : F) (A B : RigidBody F) :
  spring_part sb rest B A = vopp (spring_part sb rest A B).
Proof.
  unfold spring_part, normalize, length3, inversesqrt.
  rewrite (dot_vsub_swap (position A) (position B)).
  by_components.
Qed.

(** ** Damping of a relaxed cell *)

Lemma times_add (a b : nat) (s : F) :
  times (a + b) s = fadd (times a s) (times b s).
Proof.
  unfold times. induction a as [|a IH]; simpl.
  - ring.
  - rewrite IH. ring.
Qed.

Lemma block_relaxed sb rest (cond : bool) nb (self c : RigidBody F) :
  position self = position c -> velocity self = velocity c ->
  (cond = true -> relaxed sb rest c nb) ->
  let self' := if cond then pulled sb rest nb self else self in
  position self' = position c /\ velocity self' = velocity c /\
  netForce self' =
    vadd (netForce self)
         (vmuls (velocity c) (fopp (times (present cond nb) (dampening sb)))).
Proof.
  intros Hp Hv Hrel. destruct cond; simpl.
  - destruct (pulled_motion sb rest nb self) as [-> ->].
    split; [done|]. split; [done|].
    destruct nb as [n|]; simpl.
    + unfold neighbor_force, damping_part.
      assert (Hs : spring_part sb rest self n = vzero).
      { rewrite <- (Hrel eq_refl n eq_refl). unfold spring_part. by rewrite Hp. }
      rewrite Hs, Hv. by_components.
    + by_components.
  - split; [done|]. split; [done|]. by_components.
Qed.

Lemma springs_from_relaxed sb gr0 (i j : nat) (c : RigidBody F) :
  springs_relaxed sb gr0 i j c ->
  netForce (springs_from sb gr0 i j c) =
    vadd (netForce c)
         (vmuls (velocity c)
                (fopp (times (neighbor_count sb gr0 i j) (dampening sb)))).
Proof.
  intros (Hup & Hdown & Hleft & Hright). unfold springs_from, neighbor_count.
  destruct (block_relaxed sb _ (has_above i) _ c c eq_refl eq_refl Hup)
    as (Hp1 & Hv1 & Hf1).
  destruct (block_relaxed sb _ (has_below sb i) _ _ c Hp1 Hv1 Hdown)
    as (Hp2 & Hv2 & Hf2).
  destruct (block_relaxed sb _ (has_left j) _ _ c Hp2 Hv2 Hleft)
    as (Hp3 & Hv3 & Hf3).
  destruct (block_relaxed sb _ (has_right sb j) _ _ c Hp3 Hv3 Hright)
    as (_ & _ & Hf4).
  rewrite Hf4, Hf3, Hf2, Hf1, !times_add.
  by_components.
Qed.

(** In exact arithmetic, for a cell of a well-formed soft body whose net
    force is zero before the step and each of whose existing neighbours
    exerts no spring force, the [k] damping terms of its [k] neighbours add
    up to the velocity scaled by [-(k * dampening)].  In single precision
    the sum is not this product, see [damping_is_not_a_product]. *)
Lemma damping_exact sb (i j : nat) (c : RigidBody F) :
  well_formed sb ->
  cell (bodies sb) i j = Some c ->
  netForce c = vzero ->
  springs_relaxed sb (bodies sb) i j c ->
  exists c',
    cell (accumulate sb vzero (bodies sb)) i j = Some c' /\
    netForce c' =
      vmuls (velocity c)
            (fopp (times (neighbor_count sb (bodies sb) i j) (dampening sb))).
Proof.
  intros Hwf Hc Hnf Hrel.
  rewrite cell_accumulate, Hc by done. simpl.
  eexists. split; [done|].
  unfold forces_from.
  assert (Hs := springs_from_relaxed sb (bodies sb) i j c Hrel).
  destruct (Z.of_nat i =? 0)%Z; simpl; rewrite Hs, Hnf;
    by_components.
Qed.

(** ** The plane z = 0 *)

Lemma pulled_planar sb rest nb (self : RigidBody F) :
  planar_body self ->
  (forall n, nb = Some n -> vz (position n) = fzero) ->
  planar_body (pulled sb rest nb self).
Proof.
  intros (Hp & Hv & Hf & Hi) Hnb. destruct nb as [n|]; [|done].
  repeat split; simpl; try done.
  rewrite Hf, Hv, Hp, (Hnb n eq_refl). ring.
Qed.

Lemma springs_from_planar sb gr0 i j (self : RigidBody F) :
  planar gr0 -> planar_body self -> planar_body (springs_from sb gr0 i j self).
Proof.
  intros Hgr Hself. unfold springs_from.
  assert (Hnb : forall a b n, cell gr0 a b = Some n -> vz (position n) = fzero)
    by (intros a b n Hn; by destruct (Hgr a b n Hn)).
  destruct (has_above i); destruct (has_below sb i);
    destruct (has_left j); destruct (has_right sb j);
    repeat (apply pulled_planar; [|by eauto]); done.
Qed.

Lemma forces_from_planar sb ext gr0 i j (self : RigidBody F) :
  vz ext = fzero -> planar gr0 -> planar_body self ->
  planar_body (forces_from sb ext gr0 i j self).
Proof.
  intros Hext Hgr Hself. unfold forces_from.
  destruct (springs_from_planar sb gr0 i j self Hgr Hself)
    as (Hp & Hv & Hf & Hi).
  destruct (Z.of_nat i =? 0)%Z; [|done].
  repeat split; simpl; try done. rewrite Hf, Hext. ring.
Qed.

Lemma IntegrateLinear_planar dt (c : RigidBody F) :
  planar_body c -> planar_body (IntegrateLinear dt c).
Proof.
  intros (Hp & Hv & Hf & Hi).
  repeat split; simpl; try done; rewrite ?Hp, ?Hv, ?Hf, ?Hi; ring.
Qed.

Lemma Step_planar dt ext sb (lattice : Mesh F) :
  well_formed sb -> vz ext = fzero -> planar (bodies sb) ->
  planar (bodies (fst (Step dt ext (sb, lattice)))).
Proof.
  intros Hwf Hext Hgr i j c. rewrite cell_Step by done.
  destruct (cell (bodies sb) i j) as [c0|] eqn:Hc0; [|done].
  simpl. intros [= <-].
  apply IntegrateLinear_planar, forces_from_planar; [done|done|].
  exact (Hgr i j c0 Hc0).
Qed.

(** In exact arithmetic the plane is kept whatever the positions are: a
    z-component that is zero stays zero under every factor. *)
Lemma Steps_planar dt (forces : list (vec3 F)) (st : SoftBody F * Mesh F) :
  well_formed (fst st) -> Forall (fun ext => vz ext = fzero) forces ->
  planar (bodies (fst st)) ->
  planar (bodies (fst (Steps dt forces st))).
Proof.
  revert st.
  induction forces as [|ext forces IH]; intros [sb lattice] Hwf Hext Hgr;
    [done|].
  apply Forall_cons in Hext as [Hext Hrest].
  simpl. apply IH; [|done|].
  - by apply Step_well_formed.
  - by apply Step_planar.
Qed.
End Exact.

(** * Single precision *)

Section Single.
Import Binary32.
Implicit Types (x y z : float) (sb : SoftBody float) (gr : grid float).

(** ** Rounding does not look at the sign *)

Lemma round_aux_opp (s : bool) (m e : Z) (l : location) :
  binary_round_aux prec emax (negb s) m e l =
  SFopp (binary_round_aux prec emax s m e l).
Proof.
  unfold binary_round_aux.
  destruct (shr_fexp prec emax m e l) as [mrs' e'].
  destruct (shr_fexp prec emax _ e' loc_Exact) as [mrs'' e''].
  destruct (shr_m mrs''); simpl; try reflexivity.
  destruct (e'' <=? emax - prec)%Z; reflexivity.
Qed.

Lemma round_opp (s : bool) (m : positive) (e : Z) :
  binary_round prec emax (negb s) m e = SFopp (binary_round prec emax s m e).
Proof.
  unfold binary_round. destruct (shl_align m e _) as [mz ez].
  apply round_aux_opp.
Qed.

Lemma normalize_opp (m e : Z) :
  m <> 0%Z ->
  binary_normalize prec emax (- m) e false =
  SFopp (binary_normalize prec emax m e false).
Proof.
  destruct m as [|p|p]; [done| |]; intros _; cbn [binary_normalize Z.opp].
  - apply (round_opp false).
  - rewrite <- (round_opp true). reflexivity.
Qed.

Lemma opp_involutive x : opp (opp x) = x.
Proof. destruct x; simpl; by rewrite ?negb_involutive. Qed.

Lemma mul_opp_r x y : mul x (opp y) = opp (mul x y).
Proof.
  unfold mul, opp.
  destruct x as [sx|sx| |sx mx ex], y as [sy|sy| |sy my ey];
    cbn [SFmul SFopp]; rewrite <- ?negb_xorb_r; try reflexivity.
  apply round_aux_opp.
Qed.

Lemma mul_opp_l x y : mul (opp x) y = opp (mul x y).
Proof.
  unfold mul, opp.
  destruct x as [sx|sx| |sx mx ex], y as [sy|sy| |sy my ey];
    cbn [SFmul SFopp]; rewrite <- ?negb_xorb_l; try reflexivity.
  apply round_aux_opp.
Qed.

(** [y - x] is [-(x - y)], but that both are [+0] when [x = y] *)
Lemma sub_swap x y : same (sub y x) (opp (sub x y)).
Proof.
  unfold sub, opp.
  destruct x as [sx|sx| |sx mx ex], y as [sy|sy| |sy my ey];
    cbn [SFsub SFopp];
    try (left; reflexivity);
    try (destruct sx, sy; (left; reflexivity) || (right; split; reflexivity)).
  rewrite (Z.min_comm ey ex).
  set (a := cond_Zopp sx _). set (b := cond_Zopp sy _).
  destruct (Z.eq_dec (a - b)%Z 0%Z) as [Hz|Hnz].
  - right. replace (b - a)%Z with 0%Z by lia. rewrite Hz. split; reflexivity.
  - left. replace (b - a)%Z with (- (a - b))%Z by lia. by apply normalize_opp.
Qed.

(** squares forget the sign *)
Lemma mul_same_square x y : same x (opp y) -> mul x x = mul y y.
Proof.
  intros [->|[Hx Hy]].
  - by rewrite mul_opp_l, mul_opp_r, opp_involutive.
  - destruct x as [sx| | |]; try discriminate.
    destruct y as [sy| | |]; try discriminate.
    by destruct sx, sy.
Qed.

Lemma mul_same_l x y z : same x (opp y) -> same (mul x z) (opp (mul y z)).
Proof.
  intros [->|[Hx Hy]].
  - left. apply mul_opp_l.
  - destruct x as [sx| | |]; try discriminate.
    destruct y as [sy| | |]; try discriminate.
    destruct z as [sz|sz| |sz mz ez]; try (by left); by right.
Qed.

Lemma mul_same_r x y z : same x (opp y) -> same (mul z x) (opp (mul z y)).
Proof.
  intros [->|[Hx Hy]].
  - left. apply mul_opp_r.
  - destruct x as [sx| | |]; try discriminate.
    destruct y as [sy| | |]; try discriminate.
    destruct z as [sz|sz| |sz mz ez]; try (by left); by right.
Qed.

(** ** Action and reaction *)

Lemma dot_swap (p q : vec3 float) :
  dot (vsub p q) (vsub p q) = dot (vsub q p) (vsub q p).
Proof.
  unfold dot, vsub. simpl.
  by rewrite (mul_same_square _ _ (sub_swap (vx q) (vx p))),
             (mul_same_square _ _ (sub_swap (vy q) (vy p))),
             (mul_same_square _ _ (sub_swap (vz q) (vz p))).
Qed.

(** Hooke's term on [B] from [A] mirrors the term on [A] from [B], for one
    rest length: component by component the one is the opposite of the
    other, and the two have the same length. *)
Lemma spring_part_mirror sb (rest : float) (A B : RigidBody float) :
  vsame (spring_part sb rest B A) (vopp (spring_part sb rest A B)) /\
  length3 (spring_part sb rest B A) = length3 (spring_part sb rest A B).
Proof.
  assert (Hs : vsame (spring_part sb rest B A)
                     (vopp (spring_part sb rest A B))).
  { unfold spring_part, normalize, length3, inversesqrt.
    rewrite (dot_swap (position A) (position B)).
    repeat split; simpl; apply mul_same_r, mul_same_l, sub_swap. }
  split; [done|].
  destruct Hs as (Hx & Hy & Hz).
  unfold length3, dot. simpl in *.
  by rewrite (mul_same_square _ _ Hx), (mul_same_square _ _ Hy),
             (mul_same_square _ _ Hz).
Qed.

(** ** The degenerate spring *)

Lemma mul_nan_r x : mul x nan = nan.
Proof. by destruct x. Qed.

Lemma add_nan_r x : add x nan = nan.
Proof. by destruct x. Qed.

(** [glm::normalize] of a zero vector: [0 * (1 / sqrt 0)], zero times
    infinity, in each component *)
Lemma normalize_zero (d : vec3 float) :
  is_zero (vx d) = true -> is_zero (vy d) = true -> is_zero (vz d) = true ->
  normalize d = vnan /\ length3 d = zero.
Proof.
  destruct d as [[sx| | |] [sy| | |] [sz| | |]]; simpl; try discriminate.
  intros _ _ _. by destruct sx, sy, sz.
Qed.

(** C5, amended.  The block that computes the force from one neighbour has no
    guard for a degenerate displacement: the direction is always
    [normalize(displacement)].  When the displacement is the zero vector, in
    single precision, the direction is NaN in every component, and so are
    the neighbour's contribution and the net force of the cell after it. *)
Theorem zero_displacement_gives_nan sb (rest : float)
    (self nb : RigidBody float) :
  let displacement := vsub (position nb) (position self) in
  is_zero (vx displacement) = true ->
  is_zero (vy displacement) = true ->
  is_zero (vz displacement) = true ->
  normalize displacement = vnan /\
  spring_part sb rest self nb = vnan /\
  netForce (pulled sb rest (Some nb) self) = vnan.
Proof.
  intros d Hx Hy Hz.
  destruct (normalize_zero d Hx Hy Hz) as [Hdir Hmag].
  assert (Hspring : spring_part sb rest self nb = vnan).
  { unfold spring_part. fold d. rewrite Hdir, Hmag.
    unfold smul, vnan, vsplat. simpl. by rewrite mul_nan_r. }
  split; [done|]. split; [done|].
  simpl. unfold neighbor_force. rewrite Hspring.
  unfold vadd, vsub, vnan, vsplat. simpl. by rewrite !add_nan_r.
Qed.

(** ** Zeros and finite factors *)

Lemma add_zeros x y :
  is_zero x = true -> is_zero y = true -> is_zero (add x y) = true.
Proof. destruct x as [[]| | |], y as [[]| | |]; done. Qed.

Lemma sub_zeros x y :
  is_zero x = true -> is_zero y = true -> is_zero (sub x y) = true.
Proof. destruct x as [[]| | |], y as [[]| | |]; done. Qed.

Lemma mul_zero_l x y :
  is_zero x = true -> finite y = true -> is_zero (mul x y) = true.
Proof. destruct x as [[]| | |], y as [[]| | |]; done. Qed.

Lemma mul_zero_r x y :
  finite x = true -> is_zero y = true -> is_zero (mul x y) = true.
Proof. destruct x as [[]| | |], y as [[]| | |]; done. Qed.

Lemma mul_comm x y : mul x y = mul y x.
Proof.
  unfold mul.
  destruct x as [sx|sx| |sx mx ex], y as [sy|sy| |sy my ey];
    cbn [SFmul]; rewrite ?(xorb_comm sx sy); try reflexivity.
  by rewrite (Pos.mul_comm mx my), (Z.add_comm ex ey).
Qed.

Lemma add_zero_r x z : is_zero z = true -> same (add x z) x.
Proof.
  destruct z as [sz| | |]; try discriminate. intros _.
  destruct x as [sx| | |]; try (by left). right. by destruct sx, sz.
Qed.

Lemma add_same_r x y y' : same y y' -> same (add x y) (add x y').
Proof.
  intros [->|[Hy Hy']]; [by left|].
  destruct y as [sy| | |]; try discriminate.
  destruct y' as [sy'| | |]; try discriminate.
  destruct x as [sx| | |]; try (by left). right. by destruct sx, sy, sy'.
Qed.

#[local] Opaque mul add sub div sqrt.

Create HintDb zeros.
#[local] Hint Resolve add_zeros sub_zeros mul_zero_l mul_zero_r : zeros.

(** ** Staying in the plane *)

Lemma pulled_flat sb rest nb (self c0 : RigidBody float) :
  finite (dampening sb) = true ->
  position self = position c0 ->
  block_regular sb rest c0 nb = true ->
  flat_body self ->
  (forall n, nb = Some n -> is_zero (vz (position n)) = true) ->
  flat_body (pulled sb rest nb self).
Proof.
  intros Hd Hpos Hreg (Hp & Hv & Hf & Hi) Hnb. destruct nb as [n|]; [|done].
  simpl in Hreg. apply andb_prop in Hreg as [Hinv Hk].
  rewrite <- Hpos in Hinv, Hk.
  specialize (Hnb n eq_refl).
  repeat split; simpl; auto 8 with zeros.
Qed.

Lemma block_flat sb rest (cond : bool) nb (self c0 : RigidBody float) :
  finite (dampening sb) = true ->
  position self = position c0 ->
  (if cond then block_regular sb rest c0 nb else true) = true ->
  flat_body self ->
  (forall n, nb = Some n -> is_zero (vz (position n)) = true) ->
  let self' := if cond then pulled sb rest nb self else self in
  position self' = position c0 /\ flat_body self'.
Proof.
  intros Hd Hpos Hreg Hself Hnb. destruct cond; simpl; [|done].
  split.
  - by destruct (pulled_motion sb rest nb self) as [-> _].
  - by apply (pulled_flat sb rest nb self c0).
Qed.

Lemma springs_from_flat sb gr0 i j (c : RigidBody float) :
  finite (dampening sb) = true ->
  cell_regular sb gr0 i j c = true ->
  flat gr0 -> flat_body c ->
  flat_body (springs_from sb gr0 i j c).
Proof.
  intros Hd Hreg Hgr Hc. unfold cell_regular in Hreg.
  repeat (apply andb_prop in Hreg as [Hreg ?]).
  assert (Hnb : forall a b n, cell gr0 a b = Some n ->
                  is_zero (vz (position n)) = true)
    by (intros a b n Hn; by destruct (Hgr a b n Hn)).
  unfold springs_from.
  destruct (block_flat sb (restHeight sb) (has_above i) (cell gr0 (i - 1) j)
              c c Hd eq_refl) as [Hp1 Hf1]; [done|done|by eauto|].
  destruct (block_flat sb (restHeight sb) (has_below sb i) (cell gr0 (i + 1) j)
              _ c Hd Hp1) as [Hp2 Hf2]; [done|done|by eauto|].
  destruct (block_flat sb (restWidth sb) (has_left j) (cell gr0 i (j - 1))
              _ c Hd Hp2) as [Hp3 Hf3]; [done|done|by eauto|].
  destruct (block_flat sb (restWidth sb) (has_right sb j) (cell gr0 i (j + 1))
              _ c Hd Hp3) as [_ Hf4]; [done|done|by eauto|].
  exact Hf4.
Qed.

Lemma forces_from_flat sb ext gr0 i j (c : RigidBody float) :
  finite (dampening sb) = true ->
  cell_regular sb gr0 i j c = true ->
  is_zero (vz ext) = true ->
  flat gr0 -> flat_body c ->
  flat_body (forces_from sb ext gr0 i j c).
Proof.
  intros Hd Hreg Hext Hgr Hc. unfold forces_from.
  destruct (springs_from_flat sb gr0 i j c Hd Hreg Hgr Hc)
    as (Hp & Hv & Hf & Hi).
  destruct (Z.of_nat i =? 0)%Z; [|done].
  repeat split; simpl; auto with zeros.
Qed.

Lemma IntegrateLinear_flat dt (c : RigidBody float) :
  finite dt = true -> finite (mul dt dt) = true ->
  finite (inverseMass c) = true ->
  flat_body c -> flat_body (IntegrateLinear dt c).
Proof.
  intros Hdt Hsq Him (Hp & Hv & Hf & Hi).
  repeat split; simpl; auto 8 with zeros.
Qed.

Lemma Step_flat dt ext sb (lattice : Mesh float) :
  well_formed sb -> regular dt sb -> is_zero (vz ext) = true ->
  flat (bodies sb) ->
  flat (bodies (fst (Step dt ext (sb, lattice)))).
Proof.
  intros Hwf (Hdt & Hsq & Hd & Hcells) Hext Hgr i j c.
  rewrite cell_Step by done.
  destruct (cell (bodies sb) i j) as [c0|] eqn:Hc0; [|done].
  simpl. intros [= <-].
  specialize (Hcells i j c0 Hc0).
  apply IntegrateLinear_flat; [done|done| |].
  - rewrite inverseMass_forces_from. unfold cell_regular in Hcells.
    repeat (apply andb_prop in Hcells as [Hcells ?]). done.
  - apply forces_from_flat; [done|done|done|done|].
    exact (Hgr i j c0 Hc0).
Qed.

(** the external force that [update] builds from the input has no
    z-component *)
Lemma externalForceOf_flat (inp : Input) :
  is_zero (vz (externalForceOf (F:=float) inp)) = true.
Proof. by destruct inp as [[] [] []]. Qed.

(** C10, amended.  In single precision, take a well-formed soft body all of
    whose bodies have a zero z-component in position, velocity, net force
    and net impulse, and external forces with a zero z-component.  After any
    number of steps every body still has zero z-components, provided each of
    the steps starts from a regular state: [dt], [dt * dt], the damping,
    every inverse mass and, for every cell and each of its neighbours, the
    inverse distance (infinite for coincident neighbours) and Hooke's factor
    are finite. *)
Theorem Steps_stay_in_plane dt (forces : list (vec3 float))
    (st : SoftBody float * Mesh float) :
  well_formed (fst st) ->
  Forall (fun ext => is_zero (vz ext) = true) forces ->
  flat (bodies (fst st)) ->
  (forall k, k < length forces ->
             regular dt (fst (Steps dt (take k forces) st))) ->
  flat (bodies (fst (Steps dt forces st))).
Proof.
  revert st.
  induction forces as [|ext forces IH]; intros [sb lattice] Hwf Hext Hgr Hreg;
    [done|].
  apply Forall_cons in Hext as [Hext Hrest].
  simpl. apply IH; [by apply Step_well_formed|done| |].
  - apply Step_flat; [done| |done|done]. apply (Hreg 0). simpl. lia.
  - intros k Hk. apply (Hreg (S k)). simpl. lia.
Qed.
End Single.

(** * The blocks that the loop runs for a cell *)

Section BlockFacts.
Context {F : Type} `{Arith F}.
Implicit Types (sb : SoftBody F) (gr : grid F).

(** The body of the first pair of loops runs the blocks of the cell, one
    after the other, and then adds the external force in row 0. *)
Lemma cell_forces_blocks sb (ext : vec3 F) (p : nat * nat) gr :
  cell_forces sb ext (fst p) (snd p) gr =
  add_external ext p (foldl (run_block sb p) gr (blocks sb p)).
Proof.
  unfold cell_forces, add_external, blocks, run_block.
  by destruct (has_above (fst p)), (has_below sb (fst p)),
    (has_left (snd p)), (has_right sb (snd p)).
Qed.

Lemma elem_of_blocks sb (p q : nat * nat) (rest : F) :
  (q, rest) ∈ blocks sb p <->
  (has_above (fst p) = true /\ q = (fst p - 1, snd p) /\ rest = restHeight sb) \/
  (has_below sb (fst p) = true /\ q = (fst p + 1, snd p) /\
   rest = restHeight sb) \/
  (has_left (snd p) = true /\ q = (fst p, snd p - 1) /\ rest = restWidth sb) \/
  (has_right sb (snd p) = true /\ q = (fst p, snd p + 1) /\
   rest = restWidth sb).
Proof.
  unfold blocks. rewrite !elem_of_app.
  destruct (has_above (fst p)), (has_below sb (fst p)),
    (has_left (snd p)), (has_right sb (snd p));
    rewrite ?list_elem_of_singleton, ?elem_of_nil;
    intuition (try congruence);
    repeat match goal with
           | E : (_, _) = (_, _) |- _ => injection E as -> ->
           end; auto 10.
Qed.

(** on a well-formed grid, if a block of [p] reads [q], a block of [q] reads
    [p], with the same rest length *)
Lemma blocks_symmetric sb (p q : nat * nat) (rest : F) A B :
  well_formed sb ->
  cell (bodies sb) (fst p) (snd p) = Some A ->
  cell (bodies sb) (fst q) (snd q) = Some B ->
  (q, rest) ∈ blocks sb p -> (p, rest) ∈ blocks sb q.
Proof.
  intros Hwf HA HB.
  destruct (cell_Some_shape _ _ _ _ _ _ Hwf HA) as [Hpi Hpj].
  destruct (cell_Some_shape _ _ _ _ _ _ Hwf HB) as [Hqi Hqj].
  rewrite !elem_of_blocks.
  destruct p as [i j], q as [a b].
  unfold has_above, has_below, has_left, has_right. simpl in *.
  rewrite !Z.ltb_lt.
  intros [(Hc & [= -> ->] & ->)|[(Hc & [= -> ->] & ->)|
          [(Hc & [= -> ->] & ->)|(Hc & [= -> ->] & ->)]]].
  - right. left. split; [lia|]. split; [f_equal; lia|done].
  - left. split; [lia|]. split; [f_equal; lia|done].
  - right. right. right. split; [lia|]. split; [f_equal; lia|done].
  - right. right. left. split; [lia|]. split; [f_equal; lia|done].
Qed.

(** no two blocks of a cell read the same neighbour *)
Lemma blocks_one_rest sb (p q : nat * nat) (rest rest' : F) :
  (q, rest) ∈ blocks sb p -> (q, rest') ∈ blocks sb p -> rest = rest'.
Proof.
  rewrite !elem_of_blocks. destruct p as [i j].
  unfold has_above, has_left. simpl. rewrite !Z.ltb_lt.
  intros [(Hc & -> & ->)|[(Hc & -> & ->)|[(Hc & -> & ->)|(Hc & -> & ->)]]]
         [(Hc' & Heq & ->)|[(Hc' & Heq & ->)|[(Hc' & Heq & ->)|(Hc' & Heq & ->)]]];
    try done; injection Heq; lia.
Qed.

(** for two adjacent cells of a well-formed grid, exactly one block of the
    one reads the other, with the rest length of the spring between them *)
Lemma blocks_adjacent sb (p q : nat * nat) A B :
  well_formed sb ->
  cell (bodies sb) (fst p) (snd p) = Some A ->
  cell (bodies sb) (fst q) (snd q) = Some B ->
  adjacent p q ->
  (q, rest_between sb p q) ∈ blocks sb p.
Proof.
  intros Hwf HA HB Hadj.
  destruct (cell_Some_shape _ _ _ _ _ _ Hwf HA) as [Hpi Hpj].
  destruct (cell_Some_shape _ _ _ _ _ _ Hwf HB) as [Hqi Hqj].
  rewrite elem_of_blocks. unfold rest_between.
  destruct p as [i j], q as [a b].
  unfold adjacent, has_above, has_below, has_left, has_right in *.
  simpl in *. rewrite !Z.ltb_lt.
  destruct Hadj as [[-> [-> | ->]]|[-> [-> | ->]]].
  - rewrite Nat.eqb_refl. right. right. right.
    split; [lia|]. done.
  - rewrite Nat.eqb_refl. right. right. left.
    split; [lia|]. split; [f_equal; lia|done].
  - replace (i =? i + 1) with false by (symmetry; apply Nat.eqb_neq; lia).
    right. left. split; [lia|]. done.
  - replace (a + 1 =? a) with false by (symmetry; apply Nat.eqb_neq; lia).
    left. split; [lia|]. split; [f_equal; lia|done].
Qed.

(** what one block adds: the cell [p] holds [A0], the cell that is read
    holds [B] *)
Lemma cell_run_block sb (p q : nat * nat) (rest : F) gr (A0 B : RigidBody F) :
  cell gr (fst p) (snd p) = Some A0 ->
  cell gr (fst q) (snd q) = Some B ->
  cell (run_block sb p gr (q, rest)) (fst p) (snd p) =
  Some (addForce (vsub (spring_part sb rest A0 B) (damping_part sb A0)) A0).
Proof. intros HA HB. unfold run_block. simpl. by apply cell_pull. Qed.
End BlockFacts.

(** * The statements in single precision *)

Section SingleMore.
Import Binary32.
Implicit Types (x y z : float) (sb : SoftBody float) (gr : grid float).

(** ** The program's comparison *)

Lemma same_refl x : same x x.
Proof. by left. Qed.

Lemma same_trans x y z : same x y -> same y z -> same x z.
Proof.
  intros [->|[Hx Hy]] [<-|[Hy' Hz]];
    [by left|by right|by right|by right].
Qed.

Lemma eqb_refl x : x <> nan -> eqb x x = true.
Proof.
  intros Hx. unfold eqb, SFeqb.
  destruct x as [s|s| |s m e]; simpl; try done.
  - by destruct s.
  - rewrite Z.compare_refl, Pos.compare_cont_refl. by destruct s.
Qed.

(** the same float up to the sign of a zero is the same number for [==],
    or NaN beside NaN *)
Lemma same_agree x y : same x y -> agree x y.
Proof.
  intros [->|[Hx Hy]].
  - destruct y as [s|s| |s m e]; [left|left|by right|left];
      by apply eqb_refl.
  - left. by destruct x as [[]| | |], y as [[]| | |].
Qed.

Lemma vsame_vagree (u v : vec3 float) : vsame u v -> vagree u v.
Proof. intros (Hx & Hy & Hz). repeat split; by apply same_agree. Qed.

(** ** Sums and differences with a zero *)

Lemma add_opp x y : add x (opp y) = sub x y.
Proof.
  unfold add, sub, opp.
  destruct x as [sx|sx| |sx mx ex], y as [sy|sy| |sy my ey];
    cbn [SFadd SFsub SFopp]; try reflexivity.
  - by destruct sx, sy.
  - by destruct sx, sy.
  - f_equal. destruct sy; simpl; lia.
Qed.

Lemma sub_zero_l x z : is_zero z = true -> same (sub z x) (opp x).
Proof.
  destruct z as [sz| | |]; try discriminate. intros _.
  destruct x as [sx| | |]; try (by left). right. by destruct sx, sz.
Qed.

Lemma add_same_l x x' y : same x x' -> same (add x y) (add x' y).
Proof.
  intros [->|[Hx Hx']]; [by left|].
  destruct x as [sx| | |]; try discriminate.
  destruct x' as [sx'| | |]; try discriminate.
  destruct y as [sy| | |]; try (by left). right. by destruct sx, sx', sy.
Qed.

Lemma sub_same_l x x' y : same x x' -> same (sub x y) (sub x' y).
Proof. intros Hx. rewrite <- !add_opp. by apply add_same_l. Qed.

#[local] Opaque mul add sub div sqrt.

(** ** Integration *)

(** the instance [binary32] is the one with the rounded product for
    [powf(x, 2)] *)
Lemma binary32_powf_product : binary32_powf (fun x => mul x x) = binary32.
Proof. reflexivity. Qed.


(** ** Damping of a cell with slack springs *)

Lemma damped_S (k : nat) sb (c : RigidBody float) :
  damped (k + 1) sb c = vsub (damped k sb c) (damping_part sb c).
Proof. unfold damped. by rewrite Nat.add_1_r. Qed.

Lemma block_slack sb rest (cond : bool) nb (self c : RigidBody float) (k : nat) :
  position self = position c -> velocity self = velocity c ->
  (cond = true -> slack sb rest c nb) ->
  vsame (netForce self) (damped k sb c) ->
  let self' := if cond then pulled sb rest nb self else self in
  position self' = position c /\ velocity self' = velocity c /\
  vsame (netForce self') (damped (k + present cond nb) sb c).
Proof.
  intros Hp Hv Hslack Hf. destruct cond; simpl.
  - destruct (pulled_motion sb rest nb self) as [-> ->].
    split; [done|]. split; [done|].
    destruct nb as [n|]; simpl; [|by rewrite Nat.add_0_r].
    rewrite damped_S.
    specialize (Hslack eq_refl n eq_refl).
    unfold is_vzero in Hslack.
    apply andb_prop in Hslack as [Hslack Hsz].
    apply andb_prop in Hslack as [Hsx Hsy].
    assert (Hs : spring_part sb rest self n = spring_part sb rest c n)
      by (unfold spring_part; by rewrite Hp).
    assert (Hd : damping_part sb self = damping_part sb c)
      by (unfold damping_part; by rewrite Hv).
    unfold neighbor_force. rewrite Hs, Hd.
    destruct Hf as (Hfx & Hfy & Hfz).
    repeat split; simpl;
      (eapply same_trans;
       [apply add_same_r, sub_zero_l; done
       |rewrite add_opp; by apply sub_same_l]).
  - split; [done|]. split; [done|]. by rewrite Nat.add_0_r.
Qed.

Lemma springs_from_slack sb gr0 (i j : nat) (c : RigidBody float) :
  netForce c = vzero ->
  springs_slack sb gr0 i j c ->
  vsame (netForce (springs_from sb gr0 i j c))
        (damped (neighbor_count sb gr0 i j) sb c).
Proof.
  intros Hf (Hup & Hdown & Hleft & Hright).
  unfold springs_from, neighbor_count.
  assert (H0 : vsame (netForce c) (damped 0 sb c))
    by (rewrite Hf; repeat split; apply same_refl).
  destruct (block_slack sb _ (has_above i) _ c c 0 eq_refl eq_refl Hup H0)
    as (Hp1 & Hv1 & Hf1).
  destruct (block_slack sb _ (has_below sb i) _ _ c _ Hp1 Hv1 Hdown Hf1)
    as (Hp2 & Hv2 & Hf2).
  destruct (block_slack sb _ (has_left j) _ _ c _ Hp2 Hv2 Hleft Hf2)
    as (Hp3 & Hv3 & Hf3).
  destruct (block_slack sb _ (has_right sb j) _ _ c _ Hp3 Hv3 Hright Hf3)
    as (_ & _ & Hf4).
  exact Hf4.
Qed.

(** C4, amended.  In single precision, take a cell of a well-formed soft
    body whose net force is zero before the step and each of whose existing
    neighbours exerts no spring force (Hooke's term is a zero in every
    component).  With zero external force, the net force that phase A
    accumulates for the cell is, for the program's [==] and component by
    component (or NaN where that is NaN), what is left of the zero vector
    after the damping term [velocity * dampening] has been subtracted from it
    [k] times, each difference rounded, where [k] is the number of existing
    neighbours of the cell: the damping term acts once per neighbour. *)
Theorem damping_once_per_neighbor sb (i j : nat) (c : RigidBody float) :
  well_formed sb ->
  cell (bodies sb) i j = Some c ->
  netForce c = vzero ->
  springs_slack sb (bodies sb) i j c ->
  exists c',
    cell (accumulate sb vzero (bodies sb)) i j = Some c' /\
    vagree (netForce c')
           (damped (neighbor_count sb (bodies sb) i j) sb c).
Proof.
  intros Hwf Hc Hnf Hslack.
  rewrite cell_accumulate, Hc by done. simpl.
  eexists. split; [done|]. apply vsame_vagree.
  unfold forces_from.
  pose proof (springs_from_slack sb (bodies sb) i j c Hnf Hslack)
    as (Hx & Hy & Hz).
  destruct (Z.of_nat i =? 0)%Z; [|done].
  repeat split; simpl;
    (eapply same_trans; [apply add_zero_r; done|done]).
Qed.

(** ** Action and reaction *)

End SingleMore.

(** * The index into the mesh *)

Section MeshIndex.
Context {F : Type} `{Arith F}.

(** On a square grid the index that [update] computes is the row-major
    index. *)
Lemma numVertex_square (sb : SoftBody F) (i j : nat) :
  subdivisionsX sb = subdivisionsY sb ->
  numVertex sb i j = (Z.of_nat i * subdivisionsX sb + Z.of_nat j)%Z.
Proof. intros Hsq. unfold numVertex. by rewrite Hsq. Qed.

(** With more columns than rows, two cells of the grid get one index: the
    cell of row 0 in the column [subdivisionsY] and the first cell of row 1. *)
Lemma numVertex_collides (sb : SoftBody F) :
  (1 < subdivisionsY sb < subdivisionsX sb)%Z ->
  let j := Z.to_nat (subdivisionsY sb) in
  (Z.of_nat j < subdivisionsX sb)%Z /\ (1 < subdivisionsY sb)%Z /\
  numVertex sb 0 j = numVertex sb 1 0.
Proof. intros Hdim j. unfold numVertex. subst j. lia. Qed.

(** With more rows than columns, the last cell of the grid gets an index
    beyond the [subdivisionsX * subdivisionsY] vertices of the mesh. *)
Lemma numVertex_overruns (sb : SoftBody F) :
  (0 < subdivisionsX sb < subdivisionsY sb)%Z ->
  let i := Z.to_nat (subdivisionsY sb - 1) in
  let j := Z.to_nat (subdivisionsX sb - 1) in
  (subdivisionsX sb * subdivisionsY sb <= numVertex sb i j)%Z.
Proof. intros Hdim i j. unfold numVertex. subst i j. nia. Qed.

(** ** What phase B writes *)

Lemma for_cells_cells {S : Type} ny nx (body : nat -> nat -> S -> S) (s : S) :
  for_cells ny nx body s =
  foldl (fun s p => body (fst p) (snd p) s) s (cells ny nx).
Proof.
  unfold for_cells, cells. generalize (seq 0 ny) as ixs. intros ixs. revert s.
  induction ixs as [|i ixs IH]; intros s; [done|].
  simpl. rewrite foldl_app, IH. f_equal.
  generalize (seq 0 nx) as js. intros js. revert s.
  induction js as [|j js IHj]; intros s; [done|]. simpl. apply IHj.
Qed.

Lemma elem_of_cells ny nx i j : (i, j) ∈ cells ny nx <-> i < ny /\ j < nx.
Proof.
  unfold cells. rewrite list_elem_of_In, in_flat_map. split.
  - intros (a & Ha & Hin). apply in_map_iff in Hin as (b & [= <- <-] & Hb).
    apply in_seq in Ha, Hb. lia.
  - intros [Hi Hj]. exists i. split; [apply in_seq; lia|].
    apply in_map_iff. exists j. split; [done|apply in_seq; lia].
Qed.

Lemma NoDup_cells ny nx : NoDup (cells ny nx).
Proof.
  unfold cells. generalize (seq_NoDup ny 0). generalize (seq 0 ny) as ixs.
  induction ixs as [|i ixs IH]; intros Hnd; [constructor|].
  simpl. inversion Hnd as [|? ? Hnotin Hnd']; subst.
  apply NoDup_app. split; [|split].
  - apply NoDup_fmap_2; [intros ? ? [=]; done|].
    apply NoDup_ListNoDup, seq_NoDup.
  - intros [a b] Hab Hin.
    apply list_elem_of_In, in_map_iff in Hab as (b' & [= <- <-] & _).
    apply list_elem_of_In, in_flat_map in Hin as (a' & Ha' & Hin).
    apply in_map_iff in Hin as (b'' & [= <- <-] & _). done.
  - by apply IH.
Qed.

Lemma fst_visit sb dt st p :
  fst (visit sb dt st p) =
  alter_cell (IntegrateLinear dt) (fst p) (snd p) (fst st).
Proof.
  unfold visit, integrate_cell.
  by destruct (cell (alter_cell (IntegrateLinear dt) (fst p) (snd p) (fst st))
                    (fst p) (snd p)).
Qed.

Lemma snd_visit sb dt st p k :
  snd (visit sb dt st p) !! k =
    if decide (vindex sb p = k)
    then match cell (fst st) (fst p) (snd p) with
         | Some c =>
             move_vertex (position (IntegrateLinear dt c)) <$> snd st !! k
         | None => snd st !! k
         end
    else snd st !! k.
Proof.
  unfold visit, integrate_cell. rewrite cell_alter_cell, decide_True by done.
  destruct (cell (fst st) (fst p) (snd p)) as [c|]; simpl.
  - case_decide as Hk.
    + subst k. apply list_lookup_alter_eq.
    + by apply list_lookup_alter_ne.
  - by case_decide.
Qed.

(** the cells a list of visits does not name are left as they are *)
Lemma visits_keep_cell sb dt (L : list (nat * nat)) st i j :
  (i, j) ∉ L ->
  cell (fst (foldl (visit sb dt) st L)) i j = cell (fst st) i j.
Proof.
  revert st. induction L as [|p L IH]; intros st Hnot; [done|].
  apply not_elem_of_cons in Hnot as [Hne Hnot].
  simpl. rewrite IH by done. rewrite fst_visit.
  apply cell_alter_cell_other. by destruct p.
Qed.

(** a vertex whose index no visit computes is left as it is *)
Lemma visits_keep_vertex sb dt (L : list (nat * nat)) st k :
  (forall p, p ∈ L -> vindex sb p <> k) ->
  snd (foldl (visit sb dt) st L) !! k = snd st !! k.
Proof.
  revert st. induction L as [|p L IH]; intros st Hk; [done|].
  simpl. rewrite IH by (intros q Hq; apply Hk; by right).
  rewrite snd_visit, decide_False; [done|]. apply Hk. by left.
Qed.

Lemma visits_write_vertex sb dt (L : list (nat * nat)) st i j c :
  NoDup L ->
  (forall p q, p ∈ L -> q ∈ L -> vindex sb p = vindex sb q -> p = q) ->
  (i, j) ∈ L ->
  cell (fst st) i j = Some c ->
  snd (foldl (visit sb dt) st L) !! vindex sb (i, j) =
    move_vertex (position (IntegrateLinear dt c)) <$> snd st !! vindex sb (i, j).
Proof.
  revert st. induction L as [|p L IH]; intros st Hnd Hinj Hin Hc.
  - by apply elem_of_nil in Hin.
  - apply NoDup_cons in Hnd as [Hp Hnd]. simpl.
    apply elem_of_cons in Hin as [<-|Hin].
    + rewrite visits_keep_vertex.
      * rewrite snd_visit, decide_True by done. simpl. by rewrite Hc.
      * intros q Hq Heq. apply Hp.
        rewrite <- (Hinj q (i, j)); [done|by right|by left|done].
    + rewrite IH; [|done| |done|].
      * rewrite snd_visit, decide_False; [done|].
        intros Heq. apply Hp.
        rewrite (Hinj p (i, j)); [done|by left|by right|done].
      * intros a b Ha Hb. apply Hinj; by right.
      * rewrite fst_visit, cell_alter_cell_other; [done|].
        intros Heq. apply Hp. destruct p. simpl in Heq. by rewrite <- Heq.
Qed.

(** On a square grid, the vertex with the row-major index of a cell holds the
    position the cell has after the step; its colour is kept. *)
Lemma Step_moves_vertices_square dt ext sb (lattice : Mesh F) i j c' :
  well_formed sb ->
  subdivisionsX sb = subdivisionsY sb ->
  cell (bodies (fst (Step dt ext (sb, lattice)))) i j = Some c' ->
  let k := i * Z.to_nat (subdivisionsX sb) + j in
  vertices (snd (Step dt ext (sb, lattice))) !! k =
    move_vertex (position c') <$> vertices lattice !! k.
Proof.
  intros Hwf Hsq Hc' k. subst k.
  rewrite cell_Step in Hc' by done.
  destruct (cell (bodies sb) i j) as [c0|] eqn:Hc0; [|done].
  simpl in Hc'. injection Hc' as <-.
  destruct (cell_Some_shape _ _ _ _ _ _ Hwf Hc0) as [Hi Hj].
  unfold Step. simpl. unfold integrate_all. rewrite for_cells_cells.
  set (n := Z.to_nat (subdivisionsX sb)).
  assert (Hidx : forall a b, vindex sb (a, b) = a * n + b).
  { intros a b. unfold vindex, numVertex. simpl. rewrite <- Hsq. subst n. lia. }
  rewrite <- Hidx.
  apply (visits_write_vertex sb dt _ (_, _) i j).
  - apply NoDup_cells.
  - intros [a b] [a' b'] Ha Hb. rewrite !Hidx.
    apply elem_of_cells in Ha as [_ Hbn], Hb as [_ Hbn'].
    fold n in Hbn, Hbn'. intros Heq.
    assert (a = a') by nia. subst a'. f_equal. lia.
  - apply elem_of_cells. by split.
  - simpl. rewrite cell_accumulate by done. by rewrite Hc0.
Qed.
End MeshIndex.

(** * The scenarios, evaluated *)

Section Evaluated.
Import Binary32 Scenario.

(** ** One body under a constant force *)

(** [IntegrateLinear] in single precision, where every value of this example
    is computed without rounding: from the position (0, 1, 0) with the
    velocity (1, 0, 0) and the net force (0, -2, 0), half a time unit leads
    to the position (0.5, 0.75, 0) and the velocity (1, -1, 0). *)
Example falling_half_a_second :
  let body := mkRigidBody (mkvec3 zero one zero) (mkvec3 one zero zero) vzero
                          (mkvec3 zero (opp two) zero) vzero one in
  position (IntegrateLinear half body) =
    mkvec3 half (of_Z_exp 3 (-2)) zero /\
  velocity (IntegrateLinear half body) = mkvec3 one (opp one) zero.
Proof. split; by vm_compute. Qed.

(** ** The 2 x 2 body at rest *)

(** C9 as stated fails in one detail: the four masses that the constructor
    lays out for width = height = 1 and 2 x 2 subdivisions do not form a unit
    square.  They sit at -0.5 and 0 on both axes, the side of the square is
    0.5, which is [restWidth] and [restHeight], and not 1. *)
Lemma square_is_not_unit :
  map (map position) (bodies square) =
    [[mkvec3 minus_half minus_half zero; mkvec3 zero minus_half zero];
     [mkvec3 minus_half zero zero; mkvec3 zero zero zero]] /\
  length3 (vsub (mkvec3 zero minus_half zero)
                (mkvec3 minus_half minus_half zero)) = half /\
  length3 (vsub (mkvec3 minus_half zero zero)
                (mkvec3 minus_half minus_half zero)) = half /\
  restWidth square = half /\ restHeight square = half /\
  eqb half one = false.
Proof. repeat split; by vm_compute. Qed.

(** C9, amended.  The soft body constructed with width = height = 1, 2 x 2
    subdivisions, coefficient 25 and damping 0.5 has its masses at rest on a
    square of side 0.5, with zero velocity.  One step with dt = 0.012 and zero
    external force accumulates a zero net force on every cell and leaves every
    position and every velocity as it was. *)
Theorem square_at_rest_stays :
  map (map netForce) (accumulate square vzero (bodies square)) =
    [[vzero; vzero]; [vzero; vzero]] /\
  map (map position)
      (bodies (fst (Step physicsStep vzero (square, square_lattice)))) =
    map (map position) (bodies square) /\
  map (map velocity)
      (bodies (fst (Step physicsStep vzero (square, square_lattice)))) =
    map (map velocity) (bodies square) /\
  map (map velocity) (bodies square) = [[vzero; vzero]; [vzero; vzero]].
Proof. repeat split; by vm_compute. Qed.

(** ** The grid of 3 columns and 2 rows *)

(** C3 on the grid of 3 columns and 2 rows.  The index computed by [update]
    is [i * subdivisionsY + j], with the number of rows for the stride.  The
    cells (0, 2) and (1, 0) both get the index 2: after the step vertex 2
    holds the position of the cell (1, 0) and not that of the cell (0, 2),
    whose row-major index is 2; the position of the cell (0, 2) is in no
    vertex; vertex 5, the row-major index of the cell (1, 2), is never
    written. *)
Theorem wide_grid_vertices_collide :
  let after := Step physicsStep vzero (wide, wide_lattice) in
  numVertex wide 0 2 = 2%Z /\ numVertex wide 1 0 = 2%Z /\
  xyz <$> vertices (snd after) !! 2 = position <$> cell (bodies (fst after)) 1 0 /\
  xyz <$> vertices (snd after) !! 2 <> position <$> cell (bodies (fst after)) 0 2 /\
  (forall k, xyz <$> vertices (snd after) !! k <>
             position <$> cell (bodies (fst after)) 0 2) /\
  vertices (snd after) !! 5 = Some far.
Proof.
  split; [done|]. split; [done|].
  split; [by vm_compute|]. split; [by vm_compute|].
  split; [|by vm_compute].
  intros k. do 6 (destruct k as [|k]; [by vm_compute|]). by vm_compute.
Qed.

(** ** Coincident neighbours *)

(** C5 as stated fails: with two coincident neighbours at rest the direction
    is not the zero vector and the code does not leave the net forces at
    zero, as a zero direction would; phase A yields NaN in every component of
    both net forces. *)
Lemma coincident_neighbors_poison_forces :
  vsub (position at_origin) (position at_origin) = vzero /\
  normalize (vsub (position at_origin) (position at_origin)) = vnan /\
  map (map netForce) (accumulate coincident vzero (bodies coincident)) =
    [[vnan; vnan]] /\
  vnan <> (vzero : vec3 float) /\
  eqb (vx vnan) zero = false.
Proof.
  split; [by vm_compute|]. split; [by vm_compute|].
  split; [by vm_compute|]. split; [discriminate|reflexivity].
Qed.

(** ** Damping *)

(** C4 as stated fails.  For the isolated cell, which the claim names, no
    block of [update] runs, so no damping term is added: with zero external
    force the net force after phase A is zero and not the velocity scaled by
    [-dampening]; so it is over the real numbers and in single precision.
    For a corner of the 2 x 2 body at rest the damping term is added twice:
    the net force along x is -1 for the speed 1 and the damping 0.5. *)
Lemma damping_is_not_once_per_cell :
  (exists c c' : RigidBody R,
     cell (bodies RealScenario.lone) 0 0 = Some c /\
     velocity c <> vzero /\
     springs_relaxed RealScenario.lone (bodies RealScenario.lone) 0 0 c /\
     cell (accumulate RealScenario.lone vzero (bodies RealScenario.lone)) 0 0
       = Some c' /\
     netForce c' <> vmuls (velocity c) (fopp (dampening RealScenario.lone))) /\
  (exists c c' : RigidBody float,
     cell (bodies lone) 0 0 = Some c /\
     velocity c <> vzero /\
     springs_relaxed lone (bodies lone) 0 0 c /\
     cell (accumulate lone vzero (bodies lone)) 0 0 = Some c' /\
     netForce c' = vzero /\
     vmuls (velocity c) (fopp (dampening lone)) =
       mkvec3 (opp half) (S754_zero true) (S754_zero true)) /\
  (exists c c' : RigidBody float,
     cell (bodies corner_moving) 0 0 = Some c /\
     velocity c = mkvec3 one zero zero /\
     springs_relaxed corner_moving (bodies corner_moving) 0 0 c /\
     cell (accumulate corner_moving vzero (bodies corner_moving)) 0 0
       = Some c' /\
     vx (netForce c') = opp one /\
     vx (vmuls (velocity c) (fopp (dampening corner_moving))) = opp half).
Proof.
  split; [|split].
  - do 2 eexists. split; [reflexivity|]. split; [|split; [|split]].
    + intros Heq. apply (f_equal vx) in Heq. simpl in Heq. lra.
    + repeat split; discriminate.
    + reflexivity.
    + intros Heq. apply (f_equal vx) in Heq. simpl in Heq. lra.
  - do 2 eexists. split; [reflexivity|]. split; [|split; [|split]].
    + discriminate.
    + repeat split; discriminate.
    + by vm_compute.
    + split; by vm_compute.
  - do 2 eexists. split; [by vm_compute|]. split; [done|]. split.
    + repeat split; try discriminate; intros _ n [= <-]; by vm_compute.
    + split; [by vm_compute|]. split; by vm_compute.
Qed.

(** ** Leaving the plane *)

(** C10 as stated fails, twice.  The claim constrains the positions and the
    velocities only: a body at rest in the plane z = 0 whose net force has a
    z-component when the step starts leaves the plane in one step, with zero
    external force and no neighbour at all.  And distinct positions are not
    enough: for two bodies at rest [2^-80] apart, with all their accumulators
    zero, the squared distance underflows to zero, the inverse distance is
    infinite and one step turns the z-components of the positions into NaN. *)
Lemma plane_is_left :
  (exists c c' : RigidBody float,
     well_formed kicked /\
     cell (bodies kicked) 0 0 = Some c /\
     vz (position c) = zero /\ vz (velocity c) = zero /\
     cell (bodies (fst (Step one vzero (kicked, mkMesh [])))) 0 0 = Some c' /\
     vz (position c') = half /\ vz (velocity c') = one /\
     eqb half zero = false /\ eqb one zero = false) /\
  (well_formed near /\
   map (map (fun c => vx (position c))) (bodies near) = [[zero; tiny]] /\
   eqb zero tiny = false /\
   map (map (fun c => (vz (position c), vz (velocity c), vz (netForce c),
                       vz (netImpulse c)))) (bodies near) =
     [[(zero, zero, zero, zero); (zero, zero, zero, zero)]] /\
   map (map (fun c => vz (position c)))
       (bodies (fst (Step physicsStep vzero (near, mkMesh [])))) =
     [[nan; nan]]).
Proof.
  split.
  - do 2 eexists. split; [split; [done|by repeat constructor]|].
    split; [reflexivity|]. split; [done|]. split; [done|].
    split; [by vm_compute|]. repeat split; by vm_compute.
  - split; [split; [done|by repeat constructor]|].
    repeat split; by vm_compute.
Qed.
(** ** The integrator against the formula of the spec *)


(** ** Damping: the number of subtractions, not a product *)

(** The cell [drifter] has three neighbours.  The damping term subtracted
    three times is not the velocity scaled by [-(3 * dampening)]: the two
    differ by a unit in the last place. *)
Example damping_is_not_a_product :
  neighbor_count drifting (bodies drifting) 0 1 = 3 /\
  vx (damped 3 drifting drifter) = of_Z_exp (-9663676) (-30) /\
  vx (vmuls (velocity drifter) (opp (mul (of_Z 3) (dampening drifting)))) =
    of_Z_exp (-9663677) (-30).
Proof. vm_compute. done. Qed.

(** ** Neighbours that are too close *)

End Evaluated.

(** * The theorems at concrete inputs *)

Section Instances.
Import Binary32 Scenario.

Lemma square_well_formed : well_formed square.
Proof. split; [done|by repeat constructor]. Defined.

Lemma Step_two_phase_witness :
  well_formed square /\
  fst (Step physicsStep vzero (square, square_lattice))
    = Step_ref physicsStep vzero square.
Proof.
  split; [exact square_well_formed|].
  apply Step_two_phase. exact square_well_formed.
Defined.

Lemma Step_clears_accumulators_witness :
  let c := mkRigidBody (mkvec3 minus_half minus_half zero)
                       vzero vzero vzero vzero one in
  well_formed square /\
  cell (bodies (fst (Step physicsStep vzero (square, square_lattice)))) 0 0
    = Some c /\
  netForce c = vzero /\ netImpulse c = vzero.
Proof.
  intros c.
  assert (Hc : cell (bodies (fst (Step physicsStep vzero
                                    (square, square_lattice)))) 0 0
               = Some c) by (vm_compute; reflexivity).
  split; [exact square_well_formed|]. split; [exact Hc|].
  exact (Step_clears_accumulators _ _ _ _ 0 0 c square_well_formed Hc).
Defined.

Lemma externalForce_row0_only_witness :
  let sb := square in
  let lattice := square_lattice in
  let dt := physicsStep in
  well_formed sb /\
  (forall j c0, cell (bodies sb) 0 j = Some c0 ->
     cell (accumulate sb push (bodies sb)) 0 j =
       Some (addForce push (springs_from sb (bodies sb) 0 j c0)) /\
     netForce (addForce push (springs_from sb (bodies sb) 0 j c0)) =
       vadd (netForce (springs_from sb (bodies sb) 0 j c0)) push) /\
  (forall i j, 0 < i ->
     cell (accumulate sb push (bodies sb)) i j =
       cell (accumulate sb vzero (bodies sb)) i j /\
     cell (bodies (fst (Step dt push (sb, lattice)))) i j =
       cell (bodies (fst (Step dt vzero (sb, lattice)))) i j).
Proof.
  intros sb lattice dt. split; [exact square_well_formed|].
  exact (externalForce_row0_only dt push vzero sb lattice square_well_formed).
Defined.

Lemma zero_displacement_gives_nan_witness :
  let d := vsub (position at_origin) (position at_origin) in
  is_zero (vx d) = true /\ is_zero (vy d) = true /\ is_zero (vz d) = true /\
  normalize d = vnan /\
  spring_part coincident one at_origin at_origin = vnan /\
  netForce (pulled coincident one (Some at_origin) at_origin) = vnan.
Proof.
  intros d. split; [reflexivity|]. split; [reflexivity|]. split; [reflexivity|].
  apply (zero_displacement_gives_nan coincident one at_origin at_origin);
    reflexivity.
Defined.

Lemma square_flat : flat (bodies square).
Proof.
  intros i j c Hc.
  destruct i as [|[|i]]; destruct j as [|[|j]]; vm_compute in Hc;
    try discriminate; injection Hc as <-; by repeat split.
Defined.

Lemma square_regular (k : nat) :
  k < 2 ->
  regular physicsStep
          (fst (Steps physicsStep (take k [push; vzero])
                      (square, square_lattice))).
Proof.
  intros Hk.
  assert (Hcases : k = 0 \/ k = 1) by lia.
  destruct Hcases as [-> | ->];
    (split; [reflexivity|]; split; [reflexivity|]; split; [reflexivity|];
     intros i j c Hc;
     destruct i as [|[|i]]; destruct j as [|[|j]]; vm_compute in Hc;
     try discriminate; injection Hc as <-; vm_compute; reflexivity).
Defined.

Lemma push_then_release_flat :
  Forall (fun ext : vec3 float => is_zero (vz ext) = true) [push; vzero].
Proof. by repeat constructor. Defined.

Lemma Steps_stay_in_plane_witness :
  let st := (square, square_lattice) in
  let forces := [push; vzero] in
  well_formed (fst st) /\
  Forall (fun ext => is_zero (vz ext) = true) forces /\
  flat (bodies (fst st)) /\
  (forall k, k < length forces ->
             regular physicsStep (fst (Steps physicsStep (take k forces) st))) /\
  flat (bodies (fst (Steps physicsStep forces st))).
Proof.
  intros st forces.
  split; [exact square_well_formed|]. split; [exact push_then_release_flat|].
  split; [exact square_flat|]. split; [exact square_regular|].
  exact (Steps_stay_in_plane physicsStep forces st square_well_formed
           push_then_release_flat square_flat square_regular).
Defined.


Lemma drifting_well_formed : well_formed drifting.
Proof. split; [done|by repeat constructor]. Defined.

Lemma drifter_slack : springs_slack drifting (bodies drifting) 0 1 drifter.
Proof.
  repeat split; try discriminate;
    intros _ n Hn; vm_compute in Hn; injection Hn as <-;
    vm_compute; reflexivity.
Defined.

Lemma damping_once_per_neighbor_witness :
  well_formed drifting /\
  cell (bodies drifting) 0 1 = Some drifter /\
  netForce drifter = vzero /\
  springs_slack drifting (bodies drifting) 0 1 drifter /\
  exists c',
    cell (accumulate drifting vzero (bodies drifting)) 0 1 = Some c' /\
    vagree (netForce c')
           (damped (neighbor_count drifting (bodies drifting) 0 1)
                   drifting drifter).
Proof.
  assert (Hc : cell (bodies drifting) 0 1 = Some drifter)
    by (vm_compute; reflexivity).
  split; [exact drifting_well_formed|]. split; [exact Hc|].
  split; [reflexivity|]. split; [exact drifter_slack|].
  exact (damping_once_per_neighbor drifting 0 1 drifter
           drifting_well_formed Hc eq_refl drifter_slack).
Defined.

Lemma first_two_adjacent : adjacent (0, 0) (0, 1).
Proof. left. split; [reflexivity|]. left. reflexivity. Defined.

End Instances.
